(** * Planner.ts of the shrdlite course project: a shallow embedding

    The planner turns a goal interpretation (a disjunction of conjunctive
    clauses of literals) and a block world into a graph-search problem:
    [neighbours] generates the legal successor states, [computeGoalFunction]
    compiles the goal test, and [plan] drives the search engine once per
    interpretation.

    The development has three layers.
    - A value-level model of the functions of Planner.ts, in an error monad
      ([result]); this is what the search engine observes.
    - An object-level model of [cloneState], [performAction] and
      [neighbours] over a heap of JavaScript objects and arrays, which shows
      what is copied and what is shared, and which refines the value-level
      model.
    - A model of [plan] over a store of interpretation records, which are
      JavaScript objects the driver writes in place. *)

From Stdlib Require Import Ascii.
From stdpp Require Import gmap strings list fin_maps.

Local Open Scope Z_scope.

(** ** JavaScript values and exceptions *)

(** The values that can sit in [holding] or in a stack cell: the code is typed
    with [string], and TypeScript lets [null] and [undefined] inhabit it. *)
Inductive jsval : Type :=
  | JUndefined
  | JNull
  | JStr (name : string).

#[global] Instance jsval_eq_dec : EqDecision jsval.
Proof. solve_decision. Defined.

(** [v == null]: true of [null] and of [undefined]. *)
Definition isNullish (v : jsval) : bool :=
  match v with
  | JStr _ => false
  | _ => true
  end.

(** [a === b] on these values. *)
Definition strictEq (a b : jsval) : bool := bool_decide (a = b).

(** The property key a value is coerced to in [dictionary[v]]. *)
Definition toKey (v : jsval) : string :=
  match v with
  | JUndefined => "undefined"
  | JNull => "null"
  | JStr s => s
  end.

(** What a JavaScript computation can throw here: [Planner.Error] with its
    message, the runtime's [TypeError] (a property read on [undefined]), or
    an exception of a collaborator (the search engine). *)
Inductive exn : Type :=
  | PlannerError (message : string)
  | TypeError
  | ForeignError (message : string).

#[global] Instance exn_eq_dec : EqDecision exn.
Proof. solve_decision. Defined.

(** [Planner.Error.toString]. *)
Definition Error_toString (message : string) : string :=
  "Planner.Error" +:+ ": " +:+ message.

Inductive result (A : Type) : Type :=
  | Return (a : A)
  | Throw (e : exn).
Arguments Return {A} a.
Arguments Throw {A} e.

Definition bind {A B} (m : result A) (k : A -> result B) : result B :=
  match m with
  | Return a => k a
  | Throw e => Throw e
  end.

Declare Scope result_scope.
Delimit Scope result_scope with result.
Notation "x <- m ;; k" := (bind m (fun x => k))
  (at level 100, m at next level, right associativity) : result_scope.
Local Open Scope result_scope.

Definition rmap {A B} (f : A -> B) (m : result A) : result B :=
  x <- m ;; Return (f x).

(** ** Arrays *)

(** [a[i]] for a number [i]: [None] stands for [undefined]. *)
Definition index {A} (a : list A) (i : Z) : option A :=
  if 0 <=? i then a !! Z.to_nat i else None.

(** [a[i] = x] restricted to an existing index, the only use in this file. *)
Definition setIndex {A} (a : list A) (i : Z) (x : A) : list A :=
  if 0 <=? i then <[Z.to_nat i := x]> a else a.

(** [a.slice()]: a copy with the same cells. *)
Definition slice {A} (a : list A) : list A := firstn (length a) a.

(** [a.push(x)]: the array afterwards. *)
Definition push {A} (a : list A) (x : A) : list A := a ++ [x].

(** [a.pop()]: the value returned ([undefined] on an empty array) and the
    array afterwards. *)
Definition pop (a : list jsval) : jsval * list jsval :=
  (default JUndefined (last a), removelast a).

(** [a.shift()]: the array afterwards. *)
Definition shift {A} (a : list A) : list A := tail a.

(** ** The data of the collaborating modules *)

(** Modelled from the spec: [ObjectDefinition] (declared in World.ts, which is
    not among the sources): the physical definition of an object, form, size
    and colour. *)
Record ObjectDefinition : Type := mkObjectDefinition {
  form : string;
  size : string;
  color : string
}.

(** Modelled from the spec: [WorldState] (declared in World.ts): the stacks
    bottom to top, the held object, the arm's column and the dictionary of
    objects. Only these four fields are read by the planner. *)
Record WorldState : Type := mkWorldState {
  ws_stacks : list (list jsval);
  ws_holding : jsval;
  ws_arm : Z;
  ws_objects : gmap string ObjectDefinition
}.

(** Modelled from the spec: [Interpreter.Literal] (declared in Interpreter.ts):
    a polarity, a relation tag and the operands. *)
Record Literal : Type := mkLiteral {
  pol : bool;
  rel : string;
  args : list string
}.

(** [atom.args[i]]. *)
Definition arg (atom : Literal) (i : nat) : jsval :=
  match args atom !! i with
  | Some x => JStr x
  | None => JUndefined
  end.

(** Modelled from the spec: [Heuristics.State] (the class is declared in
    Heuristics.ts): the search state, built by
    [new Heuristics.State(arm, holding, stacks)], which keeps its three
    arguments as fields. Stacks are listed bottom to top. *)
Record State : Type := mkState {
  arm : Z;
  holding : jsval;
  stacks : list (list jsval)
}.

#[global] Instance State_eq_dec : EqDecision State.
Proof. solve_decision. Defined.

(** Modelled from the spec: the record [Heuristics.computeObjectPosition]
    returns (declared in Heuristics.ts), with the four fields
    [heightDifference] reads. [heightNo] and [stackNo] come from array keys;
    the model keeps their numeric value, which is what [+a.heightNo],
    [a.heightNo - b.heightNo] and [a.stackNo == b.stackNo] compute with. *)
Record Position : Type := mkPosition {
  isHeld : bool;
  isFloor : bool;
  stackNo : Z;
  heightNo : Z
}.

(** [Astar.Neighb<Heuristics.State>]: a successor state and the action that
    leads to it. *)
Record Neighb : Type := mkNeighb {
  state : State;
  action : string
}.

#[global] Instance Neighb_eq_dec : EqDecision Neighb.
Proof. solve_decision. Defined.

(** The functions Planner.ts calls in Interpreter.ts, Heuristics.ts and
    Astar.ts. They are not among the sources, so every definition below takes
    them as an interface; the heuristic is a black box of type [Heuristic].
    Each is a function of what it is given: the support check and the
    position lookup return, and the search engine returns a path or throws,
    and writes to no object of the planner. The callbacks the search engine
    gets may throw. *)
Class Collaborators : Type := mkCollaborators {
  Heuristic : Type;
  Interpreter_canSupport :
    option ObjectDefinition -> option ObjectDefinition -> bool;
  Heuristics_computeObjectPosition : State -> jsval -> Position;
  Heuristics_computeHeuristicFunction : list (list Literal) -> Heuristic;
  Astar_astar :
    (State -> result (list Neighb)) ->      (* neighbours *)
    (State -> State -> Z) ->                (* cost *)
    Heuristic ->                            (* heuristic *)
    State ->                                (* start *)
    (State -> result bool) ->               (* goal *)
    bool -> Z ->                            (* optimal flag, node budget *)
    result (list string)
}.

(** ** Planner.ts, value level *)

Section Planner.
Context `{Collaborators}.

(** The module variable [worldDictionary], as [canSupport] finds it. *)
Variable worldDictionary : gmap string ObjectDefinition.

Definition cost (a b : State) : Z := 1.

Definition heightDifference (s : State) (above below : jsval) : result Z :=
  let a := Heuristics_computeObjectPosition s above in
  let b := Heuristics_computeObjectPosition s below in
  if isHeld b || isHeld a then Return (-1)
  else if isFloor a then
    Throw (PlannerError
      ("heightDiff: Floor cannot be above anything... " +:+
       "Should never happen."))
  else if isFloor b then Return (heightNo a + 1)
  else if stackNo a =? stackNo b then Return (heightNo a - heightNo b)
  else Return (-1).

Definition testAtom (s : State) (atom : Literal) : result bool :=
  let ret (result : bool) := if pol atom then result else negb result in
  if String.eqb (rel atom) "holding" then
    Return (ret (strictEq (holding s) (arg atom 0)))
  else if String.eqb (rel atom) "inside" || String.eqb (rel atom) "ontop" then
    let above := arg atom 0 in
    let below := arg atom 1 in
    d <- heightDifference s above below ;;
    Return (ret (d =? 1))
  else if String.eqb (rel atom) "above" then
    let above := arg atom 0 in
    let below := arg atom 1 in
    d <- heightDifference s above below ;;
    Return (ret (0 <? d))
  else
    Throw (PlannerError
      ("!!! Unimplemented relation in testAtom: " +:+ rel atom)).

Fixpoint testConjunctiveClause (s : State) (c : list Literal) : result bool :=
  match c with
  | [] => Return true
  | atom :: c' =>
      b <- testAtom s atom ;;
      if negb b then Return false else testConjunctiveClause s c'
  end.

(** The closure [computeGoalFunction(intprt)] returns, applied to [s]. *)
Fixpoint computeGoalFunction (intprt : list (list Literal)) (s : State)
  : result bool :=
  match intprt with
  | [] => Return false
  | c :: intprt' =>
      b <- testConjunctiveClause s c ;;
      if b then Return true else computeGoalFunction intprt' s
  end.

Definition canSupport (above below : jsval) : bool :=
  let objA := worldDictionary !! toKey above in
  let objB := worldDictionary !! toKey below in
  Interpreter_canSupport objA objB.

(** The loop of [cloneState] pushes a copy of every stack, in order. *)
Definition cloneState (s : State) : State :=
  let rs := foldl (fun rs st => push rs (slice st)) [] (stacks s) in
  mkState (arm s) (holding s) rs.

Definition performAction (action : string) (state : State) : result Neighb :=
  let newState := cloneState state in
  if String.eqb action "l" then
    Return (mkNeighb
      (mkState (arm state - 1) (holding newState) (stacks newState)) action)
  else if String.eqb action "r" then
    Return (mkNeighb
      (mkState (arm state + 1) (holding newState) (stacks newState)) action)
  else if String.eqb action "p" then
    match index (stacks newState) (arm newState) with
    | None => Throw TypeError
    | Some st =>
        let '(top, rest) := pop st in
        Return (mkNeighb
          (mkState (arm newState) top
             (setIndex (stacks newState) (arm newState) rest)) action)
    end
  else if String.eqb action "d" then
    match index (stacks newState) (arm newState) with
    | None => Throw TypeError
    | Some st =>
        Return (mkNeighb
          (mkState (arm newState) JNull
             (setIndex (stacks newState) (arm newState)
                (push st (holding newState)))) action)
    end
  else Throw (PlannerError ("ERROR: unknown action " +:+ action)).

(** [result.push(performAction(a, s))], with the array [result] as [res]. *)
Definition pushAction (res : list Neighb) (a : string) (s : State)
  : result (list Neighb) :=
  n <- performAction a s ;; Return (push res n).

Definition neighbours (s : State) : result (list Neighb) :=
  let res := [] in
  let numStacks := Z.of_nat (length (stacks s)) in
  res <- (if 0 <? arm s then pushAction res "l" s else Return res) ;;
  res <- (if arm s <? numStacks - 1 then pushAction res "r" s
          else Return res) ;;
  if isNullish (holding s) then
    match index (stacks s) (arm s) with
    | None => Throw TypeError
    | Some st =>
        if 0 <? Z.of_nat (length st) then pushAction res "p" s
        else Return res
    end
  else
    match index (stacks s) (arm s) with
    | None => Throw TypeError
    | Some currStack =>
        if 0 <? Z.of_nat (length currStack) then
          let head :=
            default JUndefined
              (index currStack (Z.of_nat (length currStack) - 1)) in
          if canSupport (holding s) head then pushAction res "d" s
          else Return res
        else pushAction res "d" s
    end.

End Planner.

(** ** Planner.ts, object level: states and arrays on a heap

    A [Heuristics.State] object holds a number, a value and a reference to an
    array of references to arrays of values. [cloneState] allocates the new
    arrays, and [performAction] writes into the clone only. *)

Definition loc : Type := positive.

Inductive object : Type :=
  | OState (o_arm : Z) (o_holding : jsval) (o_stacks : loc)
  | OStacks (rows : list loc)
  | OStack (cells : list jsval).

(** A computation over a mutable store [S]: it returns or throws, and leaves
    a store. *)
Definition ST (S A : Type) : Type := S -> result A * S.

Definition mret {S A} (a : A) : ST S A := fun h => (Return a, h).

Definition mthrow {S A} (e : exn) : ST S A := fun h => (Throw e, h).

Definition mbind {S A B} (m : ST S A) (k : A -> ST S B) : ST S B :=
  fun h =>
    match m h with
    | (Return a, h') => k a h'
    | (Throw e, h') => (Throw e, h')
    end.

(** A computation that does not touch the store. *)
Definition lift {S A} (r : result A) : ST S A := fun h => (r, h).

Declare Scope heap_scope.
Delimit Scope heap_scope with heap.
Notation "x <~ m ;; k" := (mbind m (fun x => k))
  (at level 100, m at next level, right associativity) : heap_scope.

Abbreviation M := (ST (gmap loc object)).

(** A new object gets a reference no object of the heap has. *)
Definition alloc (o : object) : M loc :=
  fun h => let l := fresh (dom h) in (Return l, <[l := o]> h).

Definition store (l : loc) (o : object) : M unit :=
  fun h => (Return tt, <[l := o]> h).

(** Reading through a reference. A reference that is not to an object of the
    expected class reads as [undefined], and the property access throws. *)
Definition getArm (l : loc) : M Z :=
  fun h =>
    match h !! l with
    | Some (OState a _ _) => (Return a, h)
    | _ => (Throw TypeError, h)
    end.

Definition getHolding (l : loc) : M jsval :=
  fun h =>
    match h !! l with
    | Some (OState _ ho _) => (Return ho, h)
    | _ => (Throw TypeError, h)
    end.

Definition getStacks (l : loc) : M loc :=
  fun h =>
    match h !! l with
    | Some (OState _ _ st) => (Return st, h)
    | _ => (Throw TypeError, h)
    end.

Definition setArm (l : loc) (a : Z) : M unit :=
  fun h =>
    match h !! l with
    | Some (OState _ ho st) => (Return tt, <[l := OState a ho st]> h)
    | _ => (Throw TypeError, h)
    end.

Definition setHolding (l : loc) (ho : jsval) : M unit :=
  fun h =>
    match h !! l with
    | Some (OState a _ st) => (Return tt, <[l := OState a ho st]> h)
    | _ => (Throw TypeError, h)
    end.

Definition readStacks (l : loc) : M (list loc) :=
  fun h =>
    match h !! l with
    | Some (OStacks rows) => (Return rows, h)
    | _ => (Throw TypeError, h)
    end.

Definition readStack (l : loc) : M (list jsval) :=
  fun h =>
    match h !! l with
    | Some (OStack cells) => (Return cells, h)
    | _ => (Throw TypeError, h)
    end.

Local Open Scope heap_scope.

(** [rs.push(s.stacks[i].slice())] for the rows [s.stacks[i]] in order. *)
Fixpoint cloneRows (rs : loc) (rows : list loc) : M unit :=
  match rows with
  | [] => mret tt
  | r :: rows' =>
      cells <~ readStack r ;;
      c <~ alloc (OStack (slice cells)) ;;
      acc <~ readStacks rs ;;
      _ <~ store rs (OStacks (push acc c)) ;;
      cloneRows rs rows'
  end.

Definition cloneState_h (s : loc) : M loc :=
  rs <~ alloc (OStacks []) ;;
  st <~ getStacks s ;;
  rows <~ readStacks st ;;
  _ <~ cloneRows rs rows ;;
  a <~ getArm s ;;
  ho <~ getHolding s ;;
  alloc (OState a ho rs).

(** [newState.stacks[newState.arm]], the array the arm is over; calling a
    method on it throws when there is no such array. *)
Definition armStack (newState : loc) : M loc :=
  st <~ getStacks newState ;;
  a <~ getArm newState ;;
  rows <~ readStacks st ;;
  match index rows a with
  | Some r => mret r
  | None => mthrow TypeError
  end.

Definition performAction_h (action : string) (state : loc) : M (loc * string) :=
  newState <~ cloneState_h state ;;
  _ <~ (if String.eqb action "l" then
          a <~ getArm state ;;
          setArm newState (a - 1)
        else if String.eqb action "r" then
          a <~ getArm state ;;
          setArm newState (a + 1)
        else if String.eqb action "p" then
          r <~ armStack newState ;;
          cells <~ readStack r ;;
          _ <~ store r (OStack (snd (pop cells))) ;;
          setHolding newState (fst (pop cells))
        else if String.eqb action "d" then
          r <~ armStack newState ;;
          ho <~ getHolding newState ;;
          cells <~ readStack r ;;
          _ <~ store r (OStack (push cells ho)) ;;
          setHolding newState JNull
        else mthrow (PlannerError ("ERROR: unknown action " +:+ action))) ;;
  mret (newState, action).

(** The value a state object stands for: its fields, with every array read
    through its reference. *)
Definition readRow (h : gmap loc object) (r : loc) : option (list jsval) :=
  match h !! r with
  | Some (OStack cells) => Some cells
  | _ => None
  end.

Definition absState (h : gmap loc object) (l : loc) : option State :=
  match h !! l with
  | Some (OState a ho st) =>
      match h !! st with
      | Some (OStacks rows) =>
          match mapM (readRow h) rows with
          | Some ss => Some (mkState a ho ss)
          | None => None
          end
      | _ => None
      end
  | _ => None
  end.

(** The arrays at [rows] hold the stacks [ss]. *)
Definition rowsAre (h : gmap loc object) (rows : list loc)
    (ss : list (list jsval)) : Prop :=
  Forall2 (fun r cs => h !! r = Some (OStack cs)) rows ss.

(** The references a state object reaches: itself, its array of stacks and
    every stack. *)
Definition footprint (h : gmap loc object) (l : loc) : list loc :=
  match h !! l with
  | Some (OState _ _ st) =>
      match h !! st with
      | Some (OStacks rows) => l :: st :: rows
      | _ => [l; st]
      end
  | _ => [l]
  end.

Section NeighboursH.
Context `{Collaborators}.
Variable dictionary : gmap string ObjectDefinition.

(** [result.push(performAction(a, s))] on objects. *)
Definition pushAction_h (res : list (loc * string)) (a : string) (s : loc)
  : M (list (loc * string)) :=
  n <~ performAction_h a s ;; mret (push res n).

(** [neighbours] on a state object: every field is read through [s] where
    the code reads it. *)
Definition neighbours_h (s : loc) : M (list (loc * string)) :=
  let res := [] in
  st <~ getStacks s ;;
  rows <~ readStacks st ;;
  let numStacks := Z.of_nat (length rows) in
  a <~ getArm s ;;
  res <~ (if 0 <? a then pushAction_h res "l" s else mret res) ;;
  a <~ getArm s ;;
  res <~ (if a <? numStacks - 1 then pushAction_h res "r" s else mret res) ;;
  ho <~ getHolding s ;;
  if isNullish ho then
    r <~ armStack s ;;
    cells <~ readStack r ;;
    if 0 <? Z.of_nat (length cells) then pushAction_h res "p" s else mret res
  else
    currStack <~ armStack s ;;
    cells <~ readStack currStack ;;
    if 0 <? Z.of_nat (length cells) then
      let head :=
        default JUndefined (index cells (Z.of_nat (length cells) - 1)) in
      ho <~ getHolding s ;;
      if canSupport dictionary ho head then pushAction_h res "d" s
      else mret res
    else pushAction_h res "d" s.

(** A neighbour object stands for a neighbour value. *)
Definition neighbRefines (h : gmap loc object) (o : loc * string) (n : Neighb)
  : Prop :=
  snd o = action n /\ absState h (fst o) = Some (state n).

(** The references the state objects of an array of neighbours reach. *)
Definition footprints (h : gmap loc object) (res : list (loc * string))
  : list loc :=
  concat (map (fun o => footprint h (fst o)) res).

(** What holds of the array of neighbours while [neighbours] runs from the
    heap [h0]: its objects stand for the neighbours pushed so far, and the
    objects they reach are new for [h0] and shared by no two of them. *)
Definition newNeighbs (h0 h : gmap loc object) (res : list (loc * string))
    (ns : list Neighb) : Prop :=
  Forall2 (neighbRefines h) res ns /\
  Forall (fun l => h0 !! l = None) (footprints h res) /\
  NoDup (footprints h res).

End NeighboursH.

Local Close Scope heap_scope.

(** ** The plan driver, over a store of interpretation records

    An [Interpreter.Result] is a JavaScript object; [plan] casts each one to
    [Planner.Result] and assigns its [plan] field, so the records of the
    argument and of the returned array are the same objects. Of a record only
    [intp] and [plan] matter here; [None] is a [plan] field not yet set. The
    store also holds the module variable [worldDictionary], [null] at first. *)

Record ResultObject : Type := mkResultObject {
  intp : list (list Literal);
  r_plan : option (list string)
}.

Record Store : Type := mkStore {
  records : gmap loc ResultObject;
  worldDictionary : option (gmap string ObjectDefinition)
}.

Local Open Scope heap_scope.

(** [plan.intp]. *)
Definition getIntp (l : loc) : ST Store (list (list Literal)) :=
  fun σ =>
    match records σ !! l with
    | Some r => (Return (intp r), σ)
    | None => (Throw TypeError, σ)
    end.

(** [plan.plan = p]. *)
Definition setPlan (l : loc) (p : list string) : ST Store unit :=
  fun σ =>
    match records σ !! l with
    | Some r =>
        (Return tt,
         mkStore (<[l := mkResultObject (intp r) (Some p)]> (records σ))
                 (worldDictionary σ))
    | None => (Throw TypeError, σ)
    end.

(** [worldDictionary = d]. *)
Definition setWorldDictionary (d : gmap string ObjectDefinition)
  : ST Store unit :=
  fun σ => (Return tt, mkStore (records σ) (Some d)).

Section Driver.
Context `{Collaborators}.

(** [neighbours] runs inside the call of the search engine, where
    [worldDictionary] is [state.objects]. The message written to the console
    is left out. *)
Definition planInterpretation (intprt : list (list Literal))
    (state : WorldState) : ST Store (list string) :=
  _ <~ setWorldDictionary (ws_objects state) ;;
  let goal := computeGoalFunction intprt in
  let heur := Heuristics_computeHeuristicFunction intprt in
  let start := mkState (ws_arm state) (ws_holding state) (ws_stacks state) in
  plan <~ lift (Astar_astar (neighbours (ws_objects state)) cost heur start
                  goal true 10000) ;;
  mret (shift plan).

(** The [forEach] of [plan]: [plans] is the array built so far. *)
Fixpoint planEach (interpretations : list loc) (currentState : WorldState)
    (plans : list loc) : ST Store (list loc) :=
  match interpretations with
  | [] => mret plans
  | intprt :: rest =>
      let plan := intprt in
      i <~ getIntp plan ;;
      p <~ planInterpretation i currentState ;;
      _ <~ setPlan plan p ;;
      planEach rest currentState (push plans plan)
  end.

Definition plan (interpretations : list loc) (currentState : WorldState)
  : ST Store (list loc) :=
  plans <~ planEach interpretations currentState [] ;;
  if 0 <? Z.of_nat (length plans) then mret plans
  else mthrow (PlannerError "Found no plans").

End Driver.

(** Notions for reasoning about the driver. *)

Section DriverNotions.
Context `{Collaborators}.
Variable ws : WorldState.

(** What the search engine answers for the goal [i] in the world [ws]. *)
Definition searchOutcome (i : list (list Literal)) : result (list string) :=
  Astar_astar (neighbours (ws_objects ws)) cost
    (Heuristics_computeHeuristicFunction i)
    (mkState (ws_arm ws) (ws_holding ws) (ws_stacks ws))
    (computeGoalFunction i) true 10000.

(** The same for the record at [l]; a reference to no record reads as
    [undefined]. *)
Definition searchFor (σ : Store) (l : loc) : result (list string) :=
  match records σ !! l with
  | Some r => searchOutcome (intp r)
  | None => Throw TypeError
  end.

(** The search of the interpretation at [l] returns a path. *)
Definition searchReturns (σ : Store) (l : loc) : Prop :=
  exists p, searchFor σ l = Return p.

(** One round of the loop of [plan], on the interpretation [l]. *)
Definition planOne (l : loc) : ST Store unit :=
  i <~ getIntp l ;;
  p <~ planInterpretation i ws ;;
  setPlan l p.

End DriverNotions.

(** The records of two stores have the same goals. *)
Definition sameGoals (σ σ' : Store) : Prop :=
  forall l, intp <$> records σ' !! l = intp <$> records σ !! l.

(** [planToString]: [res.plan.join(", ")]. *)
Definition planToString (res : ResultObject) : result string :=
  match r_plan res with
  | Some p => Return (String.concat ", " p)
  | None => Throw TypeError
  end.

Local Close Scope heap_scope.

(** ** Stand-ins for the collaborators, to run the planner on concrete worlds *)

Module Standin.

(** The height of the first cell of [st] that is [v], counted from [h]. *)
Fixpoint findInStack (v : jsval) (st : list jsval) (h : Z) : option Z :=
  match st with
  | [] => None
  | x :: st' => if strictEq x v then Some h else findInStack v st' (h + 1)
  end.

(** The first column, counted from [i], with a cell that is [v]. *)
Fixpoint findInStacks (v : jsval) (sts : list (list jsval)) (i : Z)
  : option (Z * Z) :=
  match sts with
  | [] => None
  | st :: sts' =>
      match findInStack v st 0 with
      | Some h => Some (i, h)
      | None => findInStacks v sts' (i + 1)
      end
  end.

(** Modelled from the spec: [Heuristics.computeObjectPosition] (Heuristics.ts
    is not among the sources). An operand is held, or is the floor (the
    designated name ["floor"]), or sits in a column at a height counted from
    the floor; an operand that is nowhere gets column and height [-1]. *)
Definition computeObjectPosition (s : State) (v : jsval) : Position :=
  if strictEq (holding s) v then mkPosition true false (-1) (-1)
  else if strictEq v (JStr "floor") then mkPosition false true (-1) (-1)
  else
    match findInStacks v (stacks s) 0 with
    | Some (i, h) => mkPosition false false i h
    | None => mkPosition false false (-1) (-1)
    end.

(** Modelled from the spec: [Interpreter.canSupport] (Interpreter.ts is not
    among the sources), reduced to one physical law: nothing rests on a
    ball, and only known objects support each other. *)
Definition canSupport (a b : option ObjectDefinition) : bool :=
  match a, b with
  | Some _, Some ob => negb (String.eqb (form ob) "ball")
  | _, _ => false
  end.

(** Modelled from the spec: [Astar.astar] (Astar.ts is not among the
    sources), as a breadth-first search. It returns the labels of a shortest
    path, after a label for the start node, or throws when the frontier is
    empty or [budget] nodes have been expanded. *)
Fixpoint search (budget : nat)
    (neighbours : State -> result (list Neighb))
    (goal : State -> result bool)
    (frontier : list (State * list string)) (seen : list State)
  : result (list string) :=
  match budget with
  | O => Throw (ForeignError "Astar: node budget exhausted")
  | S budget' =>
      match frontier with
      | [] => Throw (ForeignError "Astar: no path")
      | (s, path) :: frontier' =>
          g <- goal s ;;
          if (g : bool) then Return ("start" :: reverse path)
          else
            ns <- neighbours s ;;
            let new :=
              filter (fun n => state n ∉ seen) (ns : list Neighb) in
            search budget' neighbours goal
              (frontier' ++ map (fun n => (state n, action n :: path)) new)
              (seen ++ map state new)
      end
  end.

Definition astar (neighbours : State -> result (list Neighb))
    (cost : State -> State -> Z) (heur : State -> Z) (start : State)
    (goal : State -> result bool) (optimal : bool) (budget : Z)
  : result (list string) :=
  search (Z.to_nat budget) neighbours goal [(start, [])] [start].

Definition collaborators : Collaborators := {|
  Heuristic := State -> Z;
  Interpreter_canSupport := canSupport;
  Heuristics_computeObjectPosition := computeObjectPosition;
  Heuristics_computeHeuristicFunction := fun _ _ => 0;
  Astar_astar := astar
|}.

(** The world of the spec's scenario: two columns, [a] under [b] in the
    first, the arm over the first column and empty. *)
Definition brick : ObjectDefinition := mkObjectDefinition "brick" "large" "red".

Definition objects : gmap string ObjectDefinition :=
  <["a" := brick]> (<["b" := brick]> ∅).

Definition world : WorldState :=
  mkWorldState [[JStr "a"; JStr "b"]; []] JNull 0 objects.

Definition start : State := mkState 0 JNull [[JStr "a"; JStr "b"]; []].

(** Interpretations: [b] on the floor; holding an object that does not
    exist; a relation the planner does not implement, before a clause that
    holds of a state holding [b]. *)
Definition b_on_floor : list (list Literal) :=
  [[mkLiteral true "ontop" ["b"; "floor"]]].

Definition holding_z : list (list Literal) :=
  [[mkLiteral true "holding" ["z"]]].

Definition beside_then_holding_b : list (list Literal) :=
  [[mkLiteral true "beside" ["a"; "b"]]; [mkLiteral true "holding" ["b"]]].

Definition store0 : Store :=
  mkStore (<[1%positive := mkResultObject b_on_floor None]>
            (<[2%positive := mkResultObject holding_z None]> ∅)) None.

(** The start state as an object over two arrays. *)
Definition heap : gmap loc object :=
  <[1%positive := OState 0 JNull 2%positive]>
    (<[2%positive := OStacks [3%positive; 4%positive]]>
       (<[3%positive := OStack [JStr "a"; JStr "b"]]>
          (<[4%positive := OStack []]> ∅))).

(** The state after the scenario's plan: [b] alone in the second column. *)
Definition finish : State := mkState 1 JNull [[JStr "a"]; [JStr "b"]].

(** A state object that lists one array as both of its stacks. *)
Definition aliasedHeap : gmap loc object :=
  <[1%positive := OState 0 JNull 2%positive]>
    (<[2%positive := OStacks [3%positive; 3%positive]]>
       (<[3%positive := OStack [JStr "a"]]> ∅)).

(** The floor as the upper operand, before a clause that holds of a state
    holding [b]. *)
Definition floor_then_holding_b : list (list Literal) :=
  [[mkLiteral true "ontop" ["floor"; "a"]]; [mkLiteral true "holding" ["b"]]].

End Standin.

(** ** The transition model in the words of the specification

    The four actions, when each is legal and what its successor is, written
    from the specification and independently of [neighbours] and
    [performAction]; the theorems below compare the two. *)

Module Spec.

Inductive Action : Type := MoveLeft | MoveRight | PickUp | PutDown.

Definition label (a : Action) : string :=
  match a with
  | MoveLeft => "l"
  | MoveRight => "r"
  | PickUp => "p"
  | PutDown => "d"
  end.

(** Left, right, pick-up, put-down: the order of emission. *)
Definition actions : list Action := [MoveLeft; MoveRight; PickUp; PutDown].

(** The column under the arm. *)
Definition column (s : State) : list jsval :=
  default [] (index (stacks s) (arm s)).

(** [stacks] with column [i] replaced by [st]. *)
Definition withColumn (sts : list (list jsval)) (i : Z) (st : list jsval)
  : list (list jsval) :=
  take (Z.to_nat i) sts ++ st :: drop (S (Z.to_nat i)) sts.

Section Legal.
Context `{Collaborators}.
Variable dictionary : gmap string ObjectDefinition.

Definition supports (above below : jsval) : bool :=
  Interpreter_canSupport (dictionary !! toKey above)
                         (dictionary !! toKey below).

Definition legal (a : Action) (s : State) : bool :=
  match a with
  | MoveLeft => bool_decide (arm s > 0)
  | MoveRight => bool_decide (arm s < Z.of_nat (length (stacks s)) - 1)
  | PickUp =>
      isNullish (holding s) && bool_decide (column s ≠ [])
  | PutDown =>
      negb (isNullish (holding s)) &&
      match last (column s) with
      | None => true
      | Some top => supports (holding s) top
      end
  end.

End Legal.

Definition successor (a : Action) (s : State) : State :=
  match a with
  | MoveLeft => mkState (arm s - 1) (holding s) (stacks s)
  | MoveRight => mkState (arm s + 1) (holding s) (stacks s)
  | PickUp =>
      match reverse (column s) with
      | top :: below =>
          mkState (arm s) top (withColumn (stacks s) (arm s) (reverse below))
      | [] => s
      end
  | PutDown =>
      mkState (arm s) JNull
        (withColumn (stacks s) (arm s) (column s ++ [holding s]))
  end.

End Spec.

(** The polarity adjustment of [testAtom]. *)
Definition adjust (polarity result : bool) : bool :=
  if polarity then result else negb result.

(** Where an object can be: in the hand, or at a height of a column. *)
Inductive Location : Type :=
  | Held
  | InStack (column height : nat).

#[global] Instance Location_eq_dec : EqDecision Location.
Proof. solve_decision. Defined.

(** The value at a location of a state, if the state has that location. *)
Definition occupant (s : State) (l : Location) : option jsval :=
  match l with
  | Held => Some (holding s)
  | InStack i j =>
      match stacks s !! i with
      | Some st => st !! j
      | None => None
      end
  end.

(** The placement invariant for the objects [objs]: each is at exactly one
    location, in the hand or at one height of one stack. *)
Definition placed (objs : list string) (s : State) : Prop :=
  forall x, x ∈ objs -> exists! l, occupant s l = Some (JStr x).

(** The same by counting: the cells of a state are the hand and then every
    stack bottom to top, and [occurrences x s] is the number of them with the
    object [x]. *)
Definition cells (s : State) : list jsval := holding s :: concat (stacks s).

Definition count (x : string) (l : list jsval) : nat :=
  length (filter (fun v => v = JStr x) l).

Definition occurrences (x : string) (s : State) : nat := count x (cells s).

(** The locations of [x], enumerated: the heights in a stack counted from
    [j], the columns counted from [i]. *)
Fixpoint heights (x : string) (st : list jsval) (j : nat) : list nat :=
  match st with
  | [] => []
  | v :: st' =>
      (if decide (v = JStr x) then [j] else []) ++ heights x st' (S j)
  end.

Fixpoint stackLocations (x : string) (sts : list (list jsval)) (i : nat)
  : list Location :=
  match sts with
  | [] => []
  | st :: sts' => map (InStack i) (heights x st 0) ++ stackLocations x sts' (S i)
  end.

Definition locations (x : string) (s : State) : list Location :=
  (if decide (holding s = JStr x) then [Held] else []) ++
  stackLocations x (stacks s) 0.

(** A column index of the state. *)
Definition armInRange (s : State) : Prop :=
  0 <= arm s < Z.of_nat (length (stacks s)).

Section Transitions.
Context `{Collaborators}.
Variable dictionary : gmap string ObjectDefinition.

(** One transition emitted by [neighbours]. *)
Definition step (s s' : State) : Prop :=
  exists ns a, neighbours dictionary s = Return ns /\ mkNeighb s' a ∈ ns.

Definition reachable : State -> State -> Prop := rtc step.

End Transitions.

(** ** Further definitions *)

(** [isUndefined(a)]: [typeof a === 'undefined']. *)
Definition isUndefined (a : jsval) : bool :=
  match a with
  | JUndefined => true
  | _ => false
  end.

(** The four labels [performAction] knows. *)
Definition actionLabels : list string := ["l"; "r"; "p"; "d"].

(** A reader of the text [planToString] writes, for plans of one-character
    labels: a label, then after each ", " the next one. It is not part of
    Planner.ts; it states that the text can be read back. *)
Fixpoint readLabels (text : string) : list string :=
  match text with
  | EmptyString => []
  | String c rest =>
      String c EmptyString ::
      match rest with
      | String ","%char (String " "%char rest') => readLabels rest'
      | _ => []
      end
  end.

(** * Theorems *)

(** ** Arrays and the error monad *)

Lemma slice_id {A} (a : list A) : slice a = a.
Proof. unfold slice. apply firstn_all. Qed.

Lemma foldl_push_slice (sts acc : list (list jsval)) :
  foldl (fun rs st => push rs (slice st)) acc sts = acc ++ sts.
Proof.
  revert acc. induction sts as [|st sts IH]; intros acc; simpl.
  - by rewrite app_nil_r.
  - rewrite IH, slice_id. unfold push. by rewrite <- app_assoc.
Qed.

Lemma index_Some {A} (a : list A) (i : Z) (x : A) :
  index a i = Some x <-> 0 <= i /\ a !! Z.to_nat i = Some x.
Proof.
  unfold index. destruct (Z.leb_spec 0 i); [tauto|].
  split; [done | lia].
Qed.

Lemma index_is_Some {A} (a : list A) (i : Z) :
  is_Some (index a i) <-> 0 <= i < Z.of_nat (length a).
Proof.
  unfold index. destruct (Z.leb_spec 0 i).
  - rewrite lookup_lt_is_Some. lia.
  - split; [intros [? ?]; discriminate | lia].
Qed.

Lemma index_None {A} (a : list A) (i : Z) :
  index a i = None <-> ~ (0 <= i < Z.of_nat (length a)).
Proof.
  rewrite <- index_is_Some, eq_None_not_Some. tauto.
Qed.

Lemma setIndex_withColumn (sts : list (list jsval)) i st :
  0 <= i < Z.of_nat (length sts) ->
  setIndex sts i st = Spec.withColumn sts i st.
Proof.
  intros Hi. unfold setIndex, Spec.withColumn.
  destruct (Z.leb_spec 0 i); [|lia].
  apply insert_take_drop. lia.
Qed.

Lemma drop_S_middle {A} (before after : list A) (x : A) :
  drop (S (length before)) (before ++ x :: after) = after.
Proof.
  rewrite (cons_middle x before after), app_assoc.
  apply drop_app_length'. rewrite length_app. simpl. lia.
Qed.

Lemma pop_snoc (a : list jsval) (x : jsval) : pop (a ++ [x]) = (x, a).
Proof. unfold pop. by rewrite last_snoc, removelast_last. Qed.

Lemma bind_Return {A B} (m : result A) (k : A -> result B) (b : B) :
  bind m k = Return b <-> exists a, m = Return a /\ k a = Return b.
Proof.
  destruct m as [a|e]; simpl.
  - split; [eauto | intros (a' & [= <-] & ?); done].
  - split; [done | intros (a' & [=] & ?)].
Qed.

(** ** [cloneState] and [performAction] on values *)

Section PlannerFacts.
Context `{Collaborators}.
Variable dictionary : gmap string ObjectDefinition.

(** On values a clone is the state itself: the copy shows only on the heap. *)
Lemma cloneState_id (s : State) : cloneState s = s.
Proof.
  unfold cloneState. rewrite foldl_push_slice. by destruct s.
Qed.

Lemma performAction_l (s : State) :
  performAction "l" s =
  Return (mkNeighb (mkState (arm s - 1) (holding s) (stacks s)) "l").
Proof. unfold performAction. by rewrite cloneState_id. Qed.

Lemma performAction_r (s : State) :
  performAction "r" s =
  Return (mkNeighb (mkState (arm s + 1) (holding s) (stacks s)) "r").
Proof. unfold performAction. by rewrite cloneState_id. Qed.

Lemma performAction_p (s : State) :
  performAction "p" s =
  match index (stacks s) (arm s) with
  | None => Throw TypeError
  | Some st =>
      Return (mkNeighb
        (mkState (arm s) (fst (pop st)) (setIndex (stacks s) (arm s)
                                            (snd (pop st)))) "p")
  end.
Proof.
  unfold performAction. rewrite cloneState_id. simpl.
  by destruct (index (stacks s) (arm s)).
Qed.

Lemma performAction_d (s : State) :
  performAction "d" s =
  match index (stacks s) (arm s) with
  | None => Throw TypeError
  | Some st =>
      Return (mkNeighb
        (mkState (arm s) JNull
           (setIndex (stacks s) (arm s) (push st (holding s)))) "d")
  end.
Proof. unfold performAction. by rewrite cloneState_id. Qed.

Lemma performAction_unknown (a : string) (s : State) :
  a ∉ ["l"; "r"; "p"; "d"] ->
  performAction a s = Throw (PlannerError ("ERROR: unknown action " +:+ a)).
Proof.
  intros Ha. unfold performAction.
  repeat match goal with
  | |- context [String.eqb a ?x] =>
      destruct (String.eqb_spec a x) as [->|_]; [exfalso; apply Ha; set_solver|]
  end.
  done.
Qed.

(** Every action is labelled with the token it was asked for. *)
Lemma performAction_action (a : string) (s : State) (n : Neighb) :
  performAction a s = Return n -> action n = a.
Proof.
  unfold performAction.
  repeat match goal with
  | |- context [if ?b then _ else _] => destruct b
  | |- context [match ?o with Some _ => _ | None => _ end] => destruct o
  | |- context [let '(_, _) := ?p in _] => destruct p
  end; intros [= <-]; done.
Qed.

End PlannerFacts.

(** ** The relation evaluator *)

Section Relations.
Context `{Collaborators}.

(** C3. [heightDifference] follows the algorithm of the specification, for
    every state and operands, whatever position the lookup reports: with an
    operand held the result is -1; otherwise, with [above] the floor, an
    error is raised and no number is returned; otherwise, with [below] the
    floor, the result is the height of [above] plus one; otherwise, in one
    column, it is the signed difference of the heights; otherwise it is -1. *)
Theorem heightDifference_algorithm (s : State) (above below : jsval) :
  let a := Heuristics_computeObjectPosition s above in
  let b := Heuristics_computeObjectPosition s below in
  (isHeld a = true \/ isHeld b = true ->
     heightDifference s above below = Return (-1)) /\
  (isHeld a = false -> isHeld b = false -> isFloor a = true ->
     exists message,
       heightDifference s above below = Throw (PlannerError message)) /\
  (isHeld a = false -> isHeld b = false -> isFloor a = false ->
   isFloor b = true ->
     heightDifference s above below = Return (heightNo a + 1)) /\
  (isHeld a = false -> isHeld b = false -> isFloor a = false ->
   isFloor b = false -> stackNo a = stackNo b ->
     heightDifference s above below = Return (heightNo a - heightNo b)) /\
  (isHeld a = false -> isHeld b = false -> isFloor a = false ->
   isFloor b = false -> stackNo a <> stackNo b ->
     heightDifference s above below = Return (-1)).
Proof.
  intros a b. unfold heightDifference. fold a b.
  repeat split.
  - intros [-> | ->]; [by rewrite orb_true_r | done].
  - intros -> -> ->. simpl. eauto.
  - by intros -> -> -> ->.
  - intros -> -> -> -> ->. simpl. by rewrite Z.eqb_refl.
  - intros -> -> -> -> Hne. simpl.
    by destruct (Z.eqb_spec (stackNo a) (stackNo b)).
Qed.

Lemma testAtom_holding (s : State) (atom : Literal) :
  rel atom = "holding" ->
  testAtom s atom =
  Return (adjust (pol atom) (bool_decide (holding s = arg atom 0))).
Proof. intros Hrel. unfold testAtom. by rewrite Hrel. Qed.

Lemma testAtom_ontop (s : State) (atom : Literal) :
  rel atom = "ontop" \/ rel atom = "inside" ->
  testAtom s atom =
  rmap (fun d => adjust (pol atom) (bool_decide (d = 1)))
       (heightDifference s (arg atom 0) (arg atom 1)).
Proof.
  intros Hrel. unfold testAtom, rmap.
  destruct Hrel as [-> | ->]; simpl;
    destruct (heightDifference _ _ _) as [d|e]; simpl; try done;
    by destruct (Z.eqb_spec d 1); [rewrite bool_decide_true|rewrite bool_decide_false].
Qed.

Lemma testAtom_above (s : State) (atom : Literal) :
  rel atom = "above" ->
  testAtom s atom =
  rmap (fun d => adjust (pol atom) (bool_decide (d > 0)))
       (heightDifference s (arg atom 0) (arg atom 1)).
Proof.
  intros Hrel. unfold testAtom, rmap. rewrite Hrel. simpl.
  destruct (heightDifference _ _ _) as [d|e]; simpl; try done.
  destruct (Z.ltb_spec 0 d);
    [rewrite bool_decide_true|rewrite bool_decide_false]; done || lia.
Qed.

(** C8. A literal whose relation tag is none of holding, ontop, inside and
    above makes [testAtom] throw a [Planner.Error] whose message ends with the
    tag; no boolean is returned. *)
Theorem testAtom_unimplemented (s : State) (atom : Literal) :
  rel atom ∉ ["holding"; "ontop"; "inside"; "above"] ->
  testAtom s atom =
  Throw (PlannerError
           ("!!! Unimplemented relation in testAtom: " +:+ rel atom)).
Proof.
  intros Hrel. unfold testAtom.
  repeat match goal with
  | |- context [String.eqb (rel atom) ?x] =>
      destruct (String.eqb_spec (rel atom) x) as [Heq|_];
      [exfalso; apply Hrel; rewrite Heq; set_solver|]
  end.
  done.
Qed.

(** A literal with the opposite polarity evaluates to the opposite boolean,
    and throws when the original throws. *)
Lemma testAtom_polarity (s : State) (p : bool) (r : string) (xs : list string) :
  testAtom s (mkLiteral (negb p) r xs) = rmap negb (testAtom s (mkLiteral p r xs)).
Proof.
  unfold testAtom, rmap, arg. simpl.
  repeat match goal with
  | |- context [if ?b then _ else _] => destruct b eqn:?; simpl
  | |- context [heightDifference ?s ?x ?y] =>
      destruct (heightDifference s x y); simpl
  end; try done; by rewrite ?negb_involutive.
Qed.

Lemma testConjunctiveClause_true (s : State) (c : list Literal) :
  testConjunctiveClause s c = Return true <->
  Forall (fun atom => testAtom s atom = Return true) c.
Proof.
  induction c as [|atom c IH]; simpl.
  - split; [constructor | done].
  - rewrite Forall_cons, <- IH.
    destruct (testAtom s atom) as [[|]|e]; simpl; split; try done.
    + intros [_ ?]; done.
    + intros [[=] _].
    + intros [[=] _].
Qed.

(** When the compiled goal returns true: some clause returns true, and every
    clause before it returned false. *)
Lemma computeGoalFunction_true (intprt : list (list Literal)) (s : State) :
  computeGoalFunction intprt s = Return true <->
  exists before c after,
    intprt = before ++ c :: after /\
    Forall (fun c' => testConjunctiveClause s c' = Return false) before /\
    testConjunctiveClause s c = Return true.
Proof.
  induction intprt as [|c0 intprt IH]; simpl.
  - split; [done|]. intros (before & c & after & Heq & _).
    by destruct before.
  - destruct (testConjunctiveClause s c0) as [[|]|e] eqn:Hc0; simpl.
    + split; [|done]. intros _. exists [], c0, intprt. by repeat split.
    + rewrite IH. split.
      * intros (before & c & after & -> & Hb & Hc).
        exists (c0 :: before), c, after. repeat split; [|done]. by constructor.
      * intros (before & c & after & Heq & Hb & Hc).
        destruct before as [|c1 before]; simpl in Heq; simplify_eq;
          [congruence|].
        apply Forall_cons in Hb as [_ Hb]. by exists before, c, after.
    + split; [done|]. intros (before & c & after & Heq & Hb & Hc).
      destruct before as [|c1 before]; simpl in Heq; simplify_eq;
        [congruence|].
      apply Forall_cons in Hb as [Hb _]. congruence.
Qed.

(** A goal none of whose clauses throws is the disjunction of its clauses. *)
Lemma computeGoalFunction_disjunction (intprt : list (list Literal)) (s : State) :
  Forall (fun c => exists b, testConjunctiveClause s c = Return b) intprt ->
  (computeGoalFunction intprt s = Return true <->
   Exists (fun c => testConjunctiveClause s c = Return true) intprt).
Proof.
  induction 1 as [|c intprt [b Hb] _ IH]; simpl.
  - split; [done | by inversion 1].
  - rewrite Hb, Exists_cons. simpl. destruct b; [tauto|].
    rewrite IH. split; [tauto | intros [Hc|?]; [congruence | done]].
Qed.

(** The literals that throw: those with a relation that is not implemented,
    and those whose upper operand is the floor. *)
Lemma testAtom_throws (s : State) (atom : Literal) (e : exn) :
  testAtom s atom = Throw e <->
  (((rel atom ∉ ["holding"; "ontop"; "inside"; "above"]) /\
     e = PlannerError ("!!! Unimplemented relation in testAtom: " +:+ rel atom)) \/
   (rel atom ∈ ["ontop"; "inside"; "above"] /\
    heightDifference s (arg atom 0) (arg atom 1) = Throw e)).
Proof.
  assert (Hno : forall r : string,
            r ∈ ["holding"; "ontop"; "inside"; "above"] ->
            ~ (rel atom = r /\ rel atom ∉ ["holding"; "ontop"; "inside"; "above"])).
  { intros r Hr [-> Hn]. done. }
  unfold testAtom.
  destruct (String.eqb_spec (rel atom) "holding") as [Hh|Hh].
  { split; [done|]. intros [[Hn _]|[Hin _]].
    - destruct (Hno "holding"); [repeat constructor | done].
    - rewrite Hh in Hin.
      repeat (apply elem_of_cons in Hin as [Hin|Hin]; [discriminate|]).
      by apply elem_of_nil in Hin. }
  destruct (String.eqb_spec (rel atom) "inside") as [Hi|Hi].
  { simpl. split.
    - destruct (heightDifference s (arg atom 0) (arg atom 1)) as [d|e'];
        simpl; [done|]. intros [= ->]. right. split; [|done].
      rewrite Hi. repeat constructor.
    - intros [[Hn _]|[_ ->]]; [|done].
      destruct (Hno "inside"); [repeat constructor | done]. }
  destruct (String.eqb_spec (rel atom) "ontop") as [Ho|Ho].
  { simpl. split.
    - destruct (heightDifference s (arg atom 0) (arg atom 1)) as [d|e'];
        simpl; [done|]. intros [= ->]. right. split; [|done].
      rewrite Ho. repeat constructor.
    - intros [[Hn _]|[_ ->]]; [|done].
      destruct (Hno "ontop"); [repeat constructor | done]. }
  destruct (String.eqb_spec (rel atom) "above") as [Ha|Ha].
  { simpl. split.
    - destruct (heightDifference s (arg atom 0) (arg atom 1)) as [d|e'];
        simpl; [done|]. intros [= ->]. right. split; [|done].
      rewrite Ha. repeat constructor.
    - intros [[Hn _]|[_ ->]]; [|done].
      destruct (Hno "above"); [repeat constructor | done]. }
  simpl. split.
  - intros [= <-]. left. split; [|done]. intros Hin.
    repeat (apply elem_of_cons in Hin as [Hin|Hin]; [done|]).
    by apply elem_of_nil in Hin.
  - intros [[_ ->]|[Hin _]]; [done|].
    repeat (apply elem_of_cons in Hin as [Hin|Hin]; [done|]).
    by apply elem_of_nil in Hin.
Qed.

(** When a clause throws: its first literal that does not return true
    throws. *)
Lemma testConjunctiveClause_throws (s : State) (c : list Literal) (e : exn) :
  testConjunctiveClause s c = Throw e <->
  exists before atom after,
    c = before ++ atom :: after /\
    Forall (fun a => testAtom s a = Return true) before /\
    testAtom s atom = Throw e.
Proof.
  induction c as [|a0 c IH]; simpl.
  - split; [done|]. intros (before & atom & after & Heq & _). by destruct before.
  - destruct (testAtom s a0) as [[|]|e0] eqn:Ha0; simpl.
    + rewrite IH. split.
      * intros (before & atom & after & -> & Hb & Ha).
        exists (a0 :: before), atom, after. split_and!; [done| |done].
        by constructor.
      * intros (before & atom & after & Heq & Hb & Ha).
        destruct before as [|a1 before]; simpl in Heq; simplify_eq;
          [congruence|].
        apply Forall_cons in Hb as [_ Hb]. by exists before, atom, after.
    + split; [done|]. intros (before & atom & after & Heq & Hb & Ha).
      destruct before as [|a1 before]; simpl in Heq; simplify_eq;
        [congruence|].
      apply Forall_cons in Hb as [Hb _]. congruence.
    + split.
      * intros [= <-]. exists [], a0, c. by split_and!.
      * intros (before & atom & after & Heq & Hb & Ha).
        destruct before as [|a1 before]; simpl in Heq; simplify_eq;
          [congruence|].
        apply Forall_cons in Hb as [Hb _]. congruence.
Qed.

(** When the compiled goal throws: its first clause that does not return
    false throws. *)
Lemma computeGoalFunction_throws (intprt : list (list Literal)) (s : State)
    (e : exn) :
  computeGoalFunction intprt s = Throw e <->
  exists before c after,
    intprt = before ++ c :: after /\
    Forall (fun c' => testConjunctiveClause s c' = Return false) before /\
    testConjunctiveClause s c = Throw e.
Proof.
  induction intprt as [|c0 intprt IH]; simpl.
  - split; [done|]. intros (before & c & after & Heq & _). by destruct before.
  - destruct (testConjunctiveClause s c0) as [[|]|e0] eqn:Hc0; simpl.
    + split; [done|]. intros (before & c & after & Heq & Hb & Hc).
      destruct before as [|c1 before]; simpl in Heq; simplify_eq;
        [congruence|].
      apply Forall_cons in Hb as [Hb _]. congruence.
    + rewrite IH. split.
      * intros (before & c & after & -> & Hb & Hc).
        exists (c0 :: before), c, after. split_and!; [done| |done].
        by constructor.
      * intros (before & c & after & Heq & Hb & Hc).
        destruct before as [|c1 before]; simpl in Heq; simplify_eq;
          [congruence|].
        apply Forall_cons in Hb as [_ Hb]. by exists before, c, after.
    + split.
      * intros [= <-]. exists [], c0, intprt. by split_and!.
      * intros (before & c & after & Heq & Hb & Hc).
        destruct before as [|c1 before]; simpl in Heq; simplify_eq;
          [congruence|].
        apply Forall_cons in Hb as [Hb _]. congruence.
Qed.

(** A clause none of whose literals throws returns, and so does a goal none
    of whose clauses throws. *)
Lemma testConjunctiveClause_returns (s : State) (c : list Literal) :
  Forall (fun atom => exists b, testAtom s atom = Return b) c ->
  exists b, testConjunctiveClause s c = Return b.
Proof.
  induction 1 as [|atom c [b Hb] _ IH]; simpl; [eauto|].
  rewrite Hb. simpl. destruct b; simpl; eauto.
Qed.

Lemma computeGoalFunction_returns (intprt : list (list Literal)) (s : State) :
  Forall (fun c => exists b, testConjunctiveClause s c = Return b) intprt ->
  exists b, computeGoalFunction intprt s = Return b.
Proof.
  induction 1 as [|c intprt [b Hb] _ IH]; simpl; [eauto|].
  rewrite Hb. simpl. destruct b; eauto.
Qed.

End Relations.

(** ** The transition generator *)

Section Neighbours.
Context `{Collaborators}.
Variable dictionary : gmap string ObjectDefinition.

Lemma ltb_bool_decide (x y : Z) : (x <? y) = bool_decide (x < y).
Proof.
  destruct (Z.ltb_spec x y);
    [rewrite bool_decide_true | rewrite bool_decide_false]; done || lia.
Qed.

Lemma column_index (s : State) (st : list jsval) :
  index (stacks s) (arm s) = Some st -> Spec.column s = st.
Proof. unfold Spec.column. by intros ->. Qed.

Lemma index_last (st : list jsval) :
  index st (Z.of_nat (length st) - 1) = last st.
Proof.
  destruct st as [|x st _] using rev_ind; [done|].
  rewrite last_snoc. apply index_Some. rewrite length_app. simpl. split; [lia|].
  replace (Z.to_nat _) with (length st) by lia.
  by rewrite lookup_app_r, Nat.sub_diag.
Qed.

Lemma legal_PickUp s st :
  index (stacks s) (arm s) = Some st ->
  Spec.legal dictionary Spec.PickUp s =
  isNullish (holding s) && (0 <? Z.of_nat (length st)).
Proof.
  intros Hst. simpl. rewrite (column_index _ _ Hst). f_equal.
  destruct st as [|x st]; [done|].
  rewrite bool_decide_true by done. symmetry. apply Z.ltb_lt. simpl. lia.
Qed.

Lemma legal_PutDown s st :
  index (stacks s) (arm s) = Some st ->
  Spec.legal dictionary Spec.PutDown s =
  negb (isNullish (holding s)) &&
  (if 0 <? Z.of_nat (length st)
   then canSupport dictionary (holding s)
          (default JUndefined (index st (Z.of_nat (length st) - 1)))
   else true).
Proof.
  intros Hst. simpl. rewrite (column_index _ _ Hst), index_last. f_equal.
  destruct st as [|top rest _] using rev_ind; [done|].
  rewrite last_snoc, length_app. simpl.
  destruct (Z.ltb_spec 0 (Z.of_nat (length rest + 1))); [done|lia].
Qed.


Lemma armInRange_index (s : State) :
  armInRange s -> exists st, index (stacks s) (arm s) = Some st.
Proof. intros Hs. by apply index_is_Some. Qed.

Lemma successor_PickUp (s : State) (rest : list jsval) (top : jsval) :
  armInRange s ->
  index (stacks s) (arm s) = Some (rest ++ [top]) ->
  performAction "p" s = Return (mkNeighb (Spec.successor Spec.PickUp s) "p").
Proof.
  intros Hs Hst. rewrite performAction_p, Hst, pop_snoc. simpl.
  rewrite (column_index _ _ Hst), reverse_snoc, reverse_involutive.
  by rewrite setIndex_withColumn.
Qed.

Lemma successor_PutDown (s : State) :
  armInRange s ->
  performAction "d" s = Return (mkNeighb (Spec.successor Spec.PutDown s) "d").
Proof.
  intros Hs. destruct (armInRange_index s Hs) as [st Hst].
  rewrite performAction_d, Hst. simpl.
  rewrite (column_index _ _ Hst). by rewrite setIndex_withColumn.
Qed.

Lemma successor_MoveLeft (s : State) :
  performAction "l" s = Return (mkNeighb (Spec.successor Spec.MoveLeft s) "l").
Proof. apply performAction_l. Qed.

Lemma successor_MoveRight (s : State) :
  performAction "r" s = Return (mkNeighb (Spec.successor Spec.MoveRight s) "r").
Proof. apply performAction_r. Qed.

(** [neighbours] emits the legal actions of the specification, in its order,
    with the successors of the specification. *)
Lemma neighbours_emits (s : State) :
  armInRange s ->
  neighbours dictionary s =
  Return (map (fun a => mkNeighb (Spec.successor a s) (Spec.label a))
              (List.filter (fun a => Spec.legal dictionary a s) Spec.actions)).
Proof.
  intros Hs. destruct (armInRange_index s Hs) as [st Hst].
  unfold Spec.actions. cbn [List.filter].
  rewrite (legal_PickUp s st Hst), (legal_PutDown s st Hst).
  unfold Spec.legal. rewrite <- (ltb_bool_decide (arm s)).
  replace (bool_decide (arm s > 0)) with (0 <? arm s)
    by (rewrite ltb_bool_decide; apply bool_decide_ext; lia).
  unfold neighbours, pushAction. rewrite Hst.
  rewrite successor_MoveLeft, successor_MoveRight, (successor_PutDown s Hs).
  assert (HPp : (0 <? Z.of_nat (length st)) = true ->
    performAction "p" s = Return (mkNeighb (Spec.successor Spec.PickUp s) "p")).
  { destruct st as [|top rest _] using rev_ind; [done|].
    intros _. by apply (successor_PickUp s rest top). }
  destruct (canSupport dictionary (holding s) _), (0 <? arm s), (arm s <? _),
    (isNullish (holding s)), (0 <? Z.of_nat (length st));
    cbn -[performAction Spec.successor]; rewrite ?HPp by done; reflexivity.
Qed.

(** Outside the columns there is no array to look at, and [neighbours]
    throws. *)
Lemma neighbours_out_of_range (s : State) :
  ~ armInRange s -> exists e, neighbours dictionary s = Throw e.
Proof.
  intros Hs. apply index_None in Hs.
  unfold neighbours, pushAction. rewrite Hs.
  rewrite performAction_l, performAction_r.
  destruct (0 <? arm s), (arm s <? _), (isNullish (holding s)); cbn; eauto.
Qed.

(** The successors on a state split around the arm's column: pick-up moves
    the top of the column into the hand, put-down moves the hand onto it. *)
Lemma successor_PickUp_split (before after : list (list jsval))
    (rest : list jsval) (top ho : jsval) :
  Spec.successor Spec.PickUp
    (mkState (Z.of_nat (length before)) ho (before ++ (rest ++ [top]) :: after))
  = mkState (Z.of_nat (length before)) top (before ++ rest :: after).
Proof.
  unfold Spec.successor, Spec.column, Spec.withColumn, index. simpl.
  destruct (Z.leb_spec 0 (Z.of_nat (length before))); [|lia].
  rewrite Nat2Z.id, list_lookup_middle by done. simpl.
  rewrite reverse_snoc, reverse_involutive.
  by rewrite take_app_length, drop_S_middle.
Qed.

Lemma successor_PutDown_split (before after : list (list jsval))
    (st : list jsval) (ho : jsval) :
  Spec.successor Spec.PutDown
    (mkState (Z.of_nat (length before)) ho (before ++ st :: after))
  = mkState (Z.of_nat (length before)) JNull (before ++ (st ++ [ho]) :: after).
Proof.
  unfold Spec.successor, Spec.column, Spec.withColumn, index. simpl.
  destruct (Z.leb_spec 0 (Z.of_nat (length before))); [|lia].
  rewrite Nat2Z.id, list_lookup_middle by done. simpl.
  by rewrite take_app_length, drop_S_middle.
Qed.

(** C2. For a state whose arm is over one of its columns, [neighbours]
    returns exactly the legal actions with their successors, in the order
    left, right, pick-up, put-down. Left is legal iff the arm is right of
    column 0, and its successor has the arm one column to the left; right is
    legal iff the arm is left of the last column, and moves it one column to
    the right; pick-up is legal iff nothing is held and the column under the
    arm is not empty, and moves the top of that column into the hand;
    put-down is legal iff something is held and the column is empty or its
    top supports the held object, and moves the hand onto the column,
    leaving the hand empty. *)
Theorem neighbours_legal_actions (s : State) :
  armInRange s ->
  neighbours dictionary s =
    Return (map (fun a => mkNeighb (Spec.successor a s) (Spec.label a))
                (List.filter (fun a => Spec.legal dictionary a s) Spec.actions)) /\
  (Spec.legal dictionary Spec.MoveLeft s = true <-> arm s > 0) /\
  (Spec.legal dictionary Spec.MoveRight s = true <->
     arm s < Z.of_nat (length (stacks s)) - 1) /\
  (Spec.legal dictionary Spec.PickUp s = true <->
     isNullish (holding s) = true /\ Spec.column s <> []) /\
  (Spec.legal dictionary Spec.PutDown s = true <->
     isNullish (holding s) = false /\
     (Spec.column s = [] \/
      exists top, last (Spec.column s) = Some top /\
                  canSupport dictionary (holding s) top = true)) /\
  Spec.successor Spec.MoveLeft s = mkState (arm s - 1) (holding s) (stacks s) /\
  Spec.successor Spec.MoveRight s = mkState (arm s + 1) (holding s) (stacks s) /\
  (forall before after rest top,
     stacks s = before ++ (rest ++ [top]) :: after ->
     arm s = Z.of_nat (length before) ->
     Spec.successor Spec.PickUp s =
     mkState (arm s) top (before ++ rest :: after)) /\
  (forall before after st,
     stacks s = before ++ st :: after ->
     arm s = Z.of_nat (length before) ->
     Spec.successor Spec.PutDown s =
     mkState (arm s) JNull (before ++ (st ++ [holding s]) :: after)).
Proof.
  intros Hs. split_and!.
  - by apply neighbours_emits.
  - simpl. by rewrite bool_decide_eq_true.
  - simpl. by rewrite bool_decide_eq_true.
  - simpl. by rewrite andb_true_iff, bool_decide_eq_true.
  - simpl. rewrite andb_true_iff, negb_true_iff. unfold canSupport, Spec.supports.
    destruct (last (Spec.column s)) as [top|] eqn:Htop.
    + split.
      * intros [? ?]. split; [done|]. right. eauto.
      * intros [? [Hnil | (top' & [= <-] & ?)]]; [|done].
        rewrite Hnil in Htop. done.
    + apply last_None in Htop. split; [intros [? _]|intros [? _]]; auto.
  - done.
  - done.
  - intros before after rest top Hsts Harm. destruct s as [a ho sts].
    simpl in *. subst. apply successor_PickUp_split.
  - intros before after st Hsts Harm. destruct s as [a ho sts].
    simpl in *. subst. apply successor_PutDown_split.
Qed.

End Neighbours.

(** ** Pick-up followed by put-down *)

Lemma index_setIndex {A} (a : list A) (i : Z) (x : A) :
  0 <= i < Z.of_nat (length a) -> index (setIndex a i x) i = Some x.
Proof.
  intros Hi. unfold index, setIndex. destruct (Z.leb_spec 0 i); [|lia].
  apply list_lookup_insert_eq. lia.
Qed.

Lemma setIndex_setIndex {A} (a : list A) (i : Z) (x y : A) :
  setIndex (setIndex a i x) i y = setIndex a i y.
Proof.
  unfold setIndex. destruct (0 <=? i); [|done]. apply list_insert_insert_eq.
Qed.

Lemma setIndex_same {A} (a : list A) (i : Z) (x : A) :
  index a i = Some x -> setIndex a i x = a.
Proof.
  intros [Hi Hx]%index_Some. unfold setIndex.
  destruct (Z.leb_spec 0 i); [|lia]. by apply list_insert_id.
Qed.

Section Reversal.
Context `{Collaborators}.

(** C9. In a state that holds nothing ([holding] is [null]) and whose arm is
    over a non-empty column, pick-up followed at once by put-down gives back
    the state itself: the column regains its top, every other column, the arm
    and the empty hand are as before. In between, the hand holds the column's
    former top. *)
Theorem pickup_putdown_restores (s : State) (rest : list jsval) (top : jsval) :
  holding s = JNull ->
  index (stacks s) (arm s) = Some (rest ++ [top]) ->
  exists s1,
    performAction "p" s = Return (mkNeighb s1 "p") /\
    holding s1 = top /\
    performAction "d" s1 = Return (mkNeighb s "d").
Proof.
  intros Hho Hst.
  assert (Hs : 0 <= arm s < Z.of_nat (length (stacks s))).
  { apply index_is_Some. eauto. }
  eexists. split; [|split].
  - rewrite performAction_p, Hst, pop_snoc. reflexivity.
  - reflexivity.
  - rewrite performAction_d. simpl.
    rewrite index_setIndex by done. simpl.
    rewrite setIndex_setIndex. unfold push.
    rewrite (setIndex_same _ _ _ Hst). destruct s; simpl in *. by subst.
Qed.

(** With [undefined] in the hand the same two actions end with [null] there
    and restore everything else. *)
Lemma pickup_putdown_nullish (s : State) (rest : list jsval) (top : jsval) :
  index (stacks s) (arm s) = Some (rest ++ [top]) ->
  exists s1,
    performAction "p" s = Return (mkNeighb s1 "p") /\
    performAction "d" s1 =
    Return (mkNeighb (mkState (arm s) JNull (stacks s)) "d").
Proof.
  intros Hst.
  assert (Hs : 0 <= arm s < Z.of_nat (length (stacks s))).
  { apply index_is_Some. eauto. }
  eexists. split.
  - rewrite performAction_p, Hst, pop_snoc. reflexivity.
  - rewrite performAction_d. simpl.
    rewrite index_setIndex by done. simpl.
    rewrite setIndex_setIndex. unfold push.
    by rewrite (setIndex_same _ _ _ Hst).
Qed.

End Reversal.

(** ** The placement invariant *)

Section Placement.
Context `{Collaborators}.
Variable dictionary : gmap string ObjectDefinition.
Variable x : string.

Lemma count_app (l1 l2 : list jsval) :
  count x (l1 ++ l2) = (count x l1 + count x l2)%nat.
Proof. unfold count. by rewrite filter_app, length_app. Qed.

Lemma count_cons (v : jsval) (l : list jsval) :
  count x (v :: l) = (count x [v] + count x l)%nat.
Proof. apply (count_app [v] l). Qed.

Lemma count_nullish (v : jsval) : isNullish v = true -> count x [v] = 0%nat.
Proof. by destruct v. Qed.

Lemma occurrences_split (a : Z) (ho : jsval) (before after : list (list jsval))
    (st : list jsval) :
  occurrences x (mkState a ho (before ++ st :: after)) =
  (count x [ho] + count x (concat before) + count x st +
   count x (concat after))%nat.
Proof.
  unfold occurrences, cells. simpl.
  rewrite count_cons, concat_app, concat_cons, !count_app. lia.
Qed.

(** A state split around the column under its arm. *)
Lemma armInRange_split (s : State) :
  armInRange s ->
  exists before st after,
    s = mkState (Z.of_nat (length before)) (holding s) (before ++ st :: after).
Proof.
  intros [st Hst]%index_is_Some. apply index_Some in Hst as [Hi Hst].
  apply list_elem_of_split_length in Hst as (before & after & Hsts & Hlen).
  exists before, st, after. destruct s as [a ho sts]; simpl in *.
  f_equal; [lia | done].
Qed.

(** Every legal action keeps the number of cells with [x]. *)
Lemma occurrences_successor (a : Spec.Action) (s : State) :
  armInRange s ->
  Spec.legal dictionary a s = true ->
  occurrences x (Spec.successor a s) = occurrences x s.
Proof.
  intros Hs Hlegal.
  destruct (armInRange_split s Hs) as (before & st & after & Hsplit).
  destruct a.
  - done.
  - done.
  - (* pick-up *)
    simpl in Hlegal. apply andb_prop in Hlegal as [Hnull Hne].
    apply bool_decide_eq_true in Hne.
    rewrite Hsplit in Hne |- *. simpl in Hnull.
    assert (Hcol : Spec.column
              (mkState (Z.of_nat (length before)) (holding s)
                       (before ++ st :: after)) = st).
    { apply column_index. simpl. apply index_Some. split; [lia|].
      rewrite Nat2Z.id. by apply list_lookup_middle. }
    rewrite Hcol in Hne.
    destruct st as [|top rest _] using rev_ind; [done|].
    rewrite successor_PickUp_split, !occurrences_split, count_app.
    rewrite (count_nullish _ Hnull). lia.
  - (* put-down *)
    simpl in Hlegal. apply andb_prop in Hlegal as [Hheld _].
    rewrite Hsplit. rewrite successor_PutDown_split, !occurrences_split, count_app.
    simpl. lia.
Qed.

Lemma step_successor (s s' : State) :
  step dictionary s s' ->
  armInRange s /\
  exists a, Spec.legal dictionary a s = true /\ s' = Spec.successor a s.
Proof.
  intros (ns & a & Hns & Hin).
  destruct (decide (armInRange s)) as [Hs|Hs].
  - split; [done|]. rewrite (neighbours_emits dictionary s Hs) in Hns.
    assert (Hin' : mkNeighb s' a ∈
      map (fun a => mkNeighb (Spec.successor a s) (Spec.label a))
          (List.filter (fun a => Spec.legal dictionary a s) Spec.actions))
      by congruence.
    apply list_elem_of_In, in_map_iff in Hin' as (a' & Heq & Hin').
    apply filter_In in Hin' as [_ Hlegal].
    exists a'. split; [done|]. congruence.
  - destruct (neighbours_out_of_range dictionary s Hs) as [e He]. congruence.
Qed.

Lemma occurrences_step (s s' : State) :
  step dictionary s s' -> occurrences x s' = occurrences x s.
Proof.
  intros (Hs & a & Hlegal & ->)%step_successor.
  by apply occurrences_successor.
Qed.

Lemma occurrences_reachable (s s' : State) :
  reachable dictionary s s' -> occurrences x s' = occurrences x s.
Proof.
  induction 1 as [s|s s1 s' Hstep _ IH]; [done|].
  rewrite IH. by apply occurrences_step.
Qed.

End Placement.

(** ** Counting cells and naming locations *)

Section Locations.
Variable x : string.

Lemma heights_length (st : list jsval) (j : nat) :
  length (heights x st j) = count x st.
Proof.
  revert j. induction st as [|v st IH]; intros j; [done|].
  simpl. rewrite length_app, IH, (count_cons x v st).
  f_equal. unfold count. rewrite filter_cons. simpl.
  by destruct (decide (v = JStr x)).
Qed.

Lemma heights_elem_of (st : list jsval) (j k : nat) :
  k ∈ heights x st j <-> (j <= k)%nat /\ st !! (k - j)%nat = Some (JStr x).
Proof.
  revert j. induction st as [|v st IH]; intros j; simpl.
  - rewrite elem_of_nil. split; [done | intros [_ [=]]].
  - rewrite elem_of_app, IH. split.
    + intros [Hk | [Hle Hk]].
      * destruct (decide (v = JStr x)) as [->|]; [|by apply elem_of_nil in Hk].
        apply list_elem_of_singleton in Hk as ->.
        by rewrite Nat.sub_diag.
      * split; [lia|]. by replace (k - j)%nat with (S (k - S j)) by lia.
    + intros [Hle Hk]. destruct (decide (k = j)) as [->|Hne].
      * left. rewrite Nat.sub_diag in Hk. simpl in Hk. injection Hk as ->.
        rewrite decide_True by done. by apply list_elem_of_singleton.
      * right. split; [lia|].
        by replace (k - j)%nat with (S (k - S j)) in Hk by lia.
Qed.

Lemma heights_NoDup (st : list jsval) (j : nat) : NoDup (heights x st j).
Proof.
  revert j. induction st as [|v st IH]; intros j; simpl; [constructor|].
  destruct (decide (v = JStr x)); simpl; [|done].
  constructor; [|done]. rewrite heights_elem_of. lia.
Qed.

Lemma stackLocations_length (sts : list (list jsval)) (i : nat) :
  length (stackLocations x sts i) = count x (concat sts).
Proof.
  revert i. induction sts as [|st sts IH]; intros i; [done|].
  simpl. by rewrite length_app, length_map, heights_length, IH, count_app.
Qed.

Lemma stackLocations_elem_of (sts : list (list jsval)) (i : nat) (l : Location) :
  l ∈ stackLocations x sts i <->
  exists c h st, l = InStack c h /\ (i <= c)%nat /\
    sts !! (c - i)%nat = Some st /\ st !! h = Some (JStr x).
Proof.
  revert i. induction sts as [|st sts IH]; intros i; simpl.
  - rewrite elem_of_nil. split; [done | intros (c & h & st & _ & _ & [=] & _)].
  - rewrite elem_of_app, IH, list_elem_of_fmap. split.
    + intros [(h & -> & Hh) | (c & h & st' & -> & Hle & Hst & Hh)].
      * apply heights_elem_of in Hh as [_ Hh]. rewrite Nat.sub_0_r in Hh.
        exists i, h, st. by rewrite Nat.sub_diag.
      * exists c, h, st'. repeat split; [lia| |done].
        by replace (c - i)%nat with (S (c - S i)) by lia.
    + intros (c & h & st' & -> & Hle & Hst & Hh).
      destruct (decide (c = i)) as [->|Hne].
      * left. rewrite Nat.sub_diag in Hst. simpl in Hst. injection Hst as ->.
        exists h. split; [done|]. apply heights_elem_of.
        split; [lia|]. by rewrite Nat.sub_0_r.
      * right. exists c, h, st'. repeat split; [lia| |done].
        by replace (c - i)%nat with (S (c - S i)) in Hst by lia.
Qed.

Lemma stackLocations_NoDup (sts : list (list jsval)) (i : nat) :
  NoDup (stackLocations x sts i).
Proof.
  revert i. induction sts as [|st sts IH]; intros i; simpl; [constructor|].
  apply NoDup_app. split; [|split].
  - apply NoDup_fmap_2; [by intros ?? [=] | apply heights_NoDup].
  - intros l (h & -> & _)%list_elem_of_fmap
      (c & h' & st' & [= <- <-] & Hle & _)%stackLocations_elem_of. lia.
  - apply IH.
Qed.

Lemma locations_length (s : State) : length (locations x s) = occurrences x s.
Proof.
  unfold locations, occurrences, cells.
  rewrite length_app, stackLocations_length, (count_cons x).
  f_equal. unfold count. rewrite filter_cons. simpl.
  by destruct (decide (holding s = JStr x)).
Qed.

Lemma locations_elem_of (s : State) (l : Location) :
  l ∈ locations x s <-> occupant s l = Some (JStr x).
Proof.
  unfold locations. rewrite elem_of_app, stackLocations_elem_of.
  destruct l as [|c h]; simpl.
  - split.
    + intros [Hl | (c & h & st & [=] & _)].
      destruct (decide (holding s = JStr x)) as [->|]; [done|].
      by apply elem_of_nil in Hl.
    + intros [= ->]. left. rewrite decide_True by done.
      by apply list_elem_of_singleton.
  - split.
    + intros [Hl | (c' & h' & st & [= <- <-] & _ & Hst & Hh)].
      * destruct (decide (holding s = JStr x));
          [by apply list_elem_of_singleton in Hl | by apply elem_of_nil in Hl].
      * rewrite Nat.sub_0_r in Hst. by rewrite Hst.
    + intros Hl. right. destruct (stacks s !! c) as [st|] eqn:Hst; [|done].
      exists c, h, st. rewrite Nat.sub_0_r. repeat split; [lia|done|done].
Qed.

Lemma locations_NoDup (s : State) : NoDup (locations x s).
Proof.
  unfold locations. apply NoDup_app. split; [|split].
  - destruct (decide (holding s = JStr x)); [apply NoDup_singleton | constructor].
  - intros l Hl (c & h & st & -> & _)%stackLocations_elem_of.
    destruct (decide (holding s = JStr x));
      [by apply list_elem_of_singleton in Hl | by apply elem_of_nil in Hl].
  - apply stackLocations_NoDup.
Qed.

(** One cell with [x] is one location for [x], and conversely. *)
Lemma occurrences_unique_location (s : State) :
  occurrences x s = 1%nat <-> exists! l, occupant s l = Some (JStr x).
Proof.
  rewrite <- locations_length. split.
  - intros Hlen. destruct (locations x s) as [|l [|l' ls]] eqn:Hls; try done.
    exists l. split.
    + apply locations_elem_of. rewrite Hls. by apply list_elem_of_singleton.
    + intros l' Hl'%locations_elem_of. rewrite Hls in Hl'.
      by apply list_elem_of_singleton in Hl'.
  - intros (l & Hl & Huniq). pose proof (locations_NoDup s) as Hnd.
    apply locations_elem_of in Hl.
    destruct (locations x s) as [|l1 [|l2 ls]] eqn:Hls.
    + by apply elem_of_nil in Hl.
    + done.
    + exfalso. assert (l1 = l2) as ->.
      { transitivity l; [symmetry|]; apply Huniq, locations_elem_of;
          rewrite Hls; repeat constructor. }
      apply NoDup_cons in Hnd as [Hnd _]. apply Hnd. constructor.
Qed.

End Locations.

Lemma placed_occurrences (objs : list string) (s : State) :
  placed objs s <-> forall x, x ∈ objs -> occurrences x s = 1%nat.
Proof.
  unfold placed. split; intros Hp x Hx; apply occurrences_unique_location; auto.
Qed.

Section Invariant.
Context `{Collaborators}.
Variable dictionary : gmap string ObjectDefinition.

(** C5. From a state in which every object of [objs] is at exactly one
    location (in the hand or at one height of one stack), every state reached
    by any finite sequence of transitions that [neighbours] emits again has
    every object of [objs] at exactly one location. *)
Theorem placement_invariant_reachable (objs : list string) (s0 s : State) :
  placed objs s0 ->
  reachable dictionary s0 s ->
  placed objs s.
Proof.
  rewrite !placed_occurrences. intros Hp Hreach x Hx.
  rewrite (occurrences_reachable dictionary x s0 s Hreach). auto.
Qed.

(** The column count and the range of the arm are invariant as well. *)
Lemma armInRange_step (s s' : State) :
  step dictionary s s' ->
  armInRange s' /\ length (stacks s') = length (stacks s).
Proof.
  intros (Hs & a & Hlegal & ->)%step_successor. unfold armInRange in *.
  destruct a; simpl in *.
  - apply bool_decide_eq_true in Hlegal. lia.
  - apply bool_decide_eq_true in Hlegal. lia.
  - destruct (reverse (Spec.column s)); [done|]. simpl.
    unfold Spec.withColumn.
    rewrite length_app, length_take. simpl. rewrite length_drop. lia.
  - unfold Spec.withColumn.
    rewrite length_app, length_take. simpl. rewrite length_drop. lia.
Qed.

End Invariant.

(** ** The heap: running and inverting computations *)

Section StoreMonad.
Context {S : Type}.

Lemma mbind_run {A B} (m : ST S A) (k : A -> ST S B) (h h1 : S) (a : A) :
  m h = (Return a, h1) -> mbind m k h = k a h1.
Proof. unfold mbind. by intros ->. Qed.

Lemma mbind_throw {A B} (m : ST S A) (k : A -> ST S B) (h h1 : S) (e : exn) :
  m h = (Throw e, h1) -> mbind m k h = (Throw e, h1).
Proof. unfold mbind. by intros ->. Qed.

Lemma mbind_assoc {A B C} (m : ST S A) (k1 : A -> ST S B) (k2 : B -> ST S C)
    (h : S) :
  mbind (mbind m k1) k2 h = mbind m (fun x => mbind (k1 x) k2) h.
Proof. unfold mbind. by destruct (m h) as [[a|e] h1]. Qed.

Lemma mbind_mret {A B} (a : A) (k : A -> ST S B) (h : S) :
  mbind (mret a) k h = k a h.
Proof. done. Qed.

Lemma mbind_mthrow {A B} (e : exn) (k : A -> ST S B) (h : S) :
  mbind (mthrow e) k h = (Throw e, h).
Proof. done. Qed.

Lemma mbind_inv {A B} (m : ST S A) (k : A -> ST S B) (h h' : S) (r : result B) :
  mbind m k h = (r, h') ->
  (exists a h1, m h = (Return a, h1) /\ k a h1 = (r, h')) \/
  (exists e, m h = (Throw e, h') /\ r = Throw e).
Proof.
  unfold mbind. destruct (m h) as [[a|e] h1]; intros Hk.
  - left. eauto.
  - right. exists e. by injection Hk as <- <-.
Qed.

End StoreMonad.

Section Heap.
Implicit Types h : gmap loc object.

(** A reference is new for [h0] when [h0] has no object there. *)
Lemma alloc_inv h0 h (o : object) (r : result loc) h' :
  h0 ⊆ h -> alloc o h = (r, h') ->
  exists l, r = Return l /\ h' = <[l := o]> h /\ h !! l = None /\
            h0 !! l = None /\ h0 ⊆ h'.
Proof.
  intros Hsub [= <- <-]. exists (fresh (dom h)).
  assert (Hl : h !! fresh (dom h) = None) by apply not_elem_of_dom, is_fresh.
  assert (Hl0 : h0 !! fresh (dom h) = None) by by eapply lookup_weaken_None.
  repeat split; try done. by apply insert_subseteq_r.
Qed.

Lemma getArm_run h l a ho st :
  h !! l = Some (OState a ho st) -> getArm l h = (Return a, h).
Proof. unfold getArm. by intros ->. Qed.

Lemma getHolding_run h l a ho st :
  h !! l = Some (OState a ho st) -> getHolding l h = (Return ho, h).
Proof. unfold getHolding. by intros ->. Qed.

Lemma getStacks_run h l a ho st :
  h !! l = Some (OState a ho st) -> getStacks l h = (Return st, h).
Proof. unfold getStacks. by intros ->. Qed.

Lemma setArm_run h l a ho st a' :
  h !! l = Some (OState a ho st) ->
  setArm l a' h = (Return tt, <[l := OState a' ho st]> h).
Proof. unfold setArm. by intros ->. Qed.

Lemma setHolding_run h l a ho st ho' :
  h !! l = Some (OState a ho st) ->
  setHolding l ho' h = (Return tt, <[l := OState a ho' st]> h).
Proof. unfold setHolding. by intros ->. Qed.

Lemma readStacks_run h l rows :
  h !! l = Some (OStacks rows) -> readStacks l h = (Return rows, h).
Proof. unfold readStacks. by intros ->. Qed.

Lemma readStack_run h l cells :
  h !! l = Some (OStack cells) -> readStack l h = (Return cells, h).
Proof. unfold readStack. by intros ->. Qed.

(** A read leaves the heap as it is, and tells what is there when it returns. *)
Lemma getArm_inv h l r h' :
  getArm l h = (r, h') ->
  h' = h /\ forall a, r = Return a -> exists ho st, h !! l = Some (OState a ho st).
Proof.
  unfold getArm. destruct (h !! l) as [[a ho st| |]|]; intros [= <- <-];
    (split; [done|]); intros a' [= <-]; eauto.
Qed.

Lemma getHolding_inv h l r h' :
  getHolding l h = (r, h') ->
  h' = h /\ forall ho, r = Return ho -> exists a st, h !! l = Some (OState a ho st).
Proof.
  unfold getHolding. destruct (h !! l) as [[a ho st| |]|]; intros [= <- <-];
    (split; [done|]); intros a' [= <-]; eauto.
Qed.

Lemma getStacks_inv h l r h' :
  getStacks l h = (r, h') ->
  h' = h /\ forall st, r = Return st -> exists a ho, h !! l = Some (OState a ho st).
Proof.
  unfold getStacks. destruct (h !! l) as [[a ho st| |]|]; intros [= <- <-];
    (split; [done|]); intros a' [= <-]; eauto.
Qed.

Lemma readStacks_inv h l r h' :
  readStacks l h = (r, h') ->
  h' = h /\ forall rows, r = Return rows -> h !! l = Some (OStacks rows).
Proof.
  unfold readStacks. destruct (h !! l) as [[| rows |]|]; intros [= <- <-];
    (split; [done|]); intros a' [= <-]; eauto.
Qed.

Lemma readStack_inv h l r h' :
  readStack l h = (r, h') ->
  h' = h /\ forall cells, r = Return cells -> h !! l = Some (OStack cells).
Proof.
  unfold readStack. destruct (h !! l) as [[| | cells]|]; intros [= <- <-];
    (split; [done|]); intros a' [= <-]; eauto.
Qed.

(** A write to a state object changes that object only. *)
Lemma setArm_inv h l a' r h' :
  setArm l a' h = (r, h') ->
  h' = h \/ exists o, h' = <[l := o]> h.
Proof.
  unfold setArm. destruct (h !! l) as [[a ho st| |]|]; intros [= <- <-]; eauto.
Qed.

Lemma setHolding_inv h l ho' r h' :
  setHolding l ho' h = (r, h') ->
  h' = h \/ exists o, h' = <[l := o]> h.
Proof.
  unfold setHolding. destruct (h !! l) as [[a ho st| |]|]; intros [= <- <-]; eauto.
Qed.

(** The loop of [cloneState] writes to new arrays only, and [rs] ends with
    references to new arrays. *)
Lemma cloneRows_inv h0 (rs : loc) (rows : list loc) :
  forall h (acc : list loc) r h',
    h0 ⊆ h -> h0 !! rs = None -> h !! rs = Some (OStacks acc) ->
    Forall (fun l => h0 !! l = None) acc ->
    cloneRows rs rows h = (r, h') ->
    h0 ⊆ h' /\
    exists new, h' !! rs = Some (OStacks (acc ++ new)) /\
                Forall (fun l => h0 !! l = None) (acc ++ new).
Proof.
  induction rows as [|r0 rows IH]; intros h acc r h' Hsub Hrs Hacc Hnew Hrun.
  - injection Hrun as <- <-. split; [done|]. exists []. by rewrite app_nil_r.
  - simpl in Hrun.
    apply mbind_inv in Hrun as [(cells & h1 & Hread & Hrun) | (e & Hread & ->)].
    2: { apply readStack_inv in Hread as [-> _]. split; [done|].
         exists []. by rewrite app_nil_r. }
    apply readStack_inv in Hread as [-> _].
    apply mbind_inv in Hrun as [(c & h2 & Halloc & Hrun) | (e & Halloc & ->)].
    2: { by apply (alloc_inv h0) in Halloc as (c' & [=] & _). }
    apply (alloc_inv h0) in Halloc as (c' & [= ->] & -> & Hhc & Hh0c & Hsub2);
      [|done].
    assert (Hne : c' <> rs) by congruence.
    rewrite (mbind_run _ _ _ _ acc) in Hrun
      by (apply readStacks_run; by rewrite lookup_insert_ne).
    unfold store in Hrun at 1. unfold mbind at 1 in Hrun.
    apply IH with (acc := push acc c') in Hrun as [Hsub3 (new & Hrs' & Hnew')].
    + split; [done|]. exists (c' :: new). unfold push in *.
      by rewrite <- app_assoc in Hrs', Hnew'.
    + by apply insert_subseteq_r.
    + done.
    + by rewrite lookup_insert_eq.
    + unfold push. apply Forall_app. split; [done|]. by constructor.
Qed.

Lemma index_elem_of {A} (a : list A) (i : Z) (x : A) :
  index a i = Some x -> x ∈ a.
Proof. intros [_ Hx]%index_Some. by eapply list_elem_of_lookup_2. Qed.

Lemma armStack_inv h (l : loc) (res : result loc) h' :
  armStack l h = (res, h') ->
  h' = h /\
  forall r, res = Return r ->
    exists a ho rs rows,
      h !! l = Some (OState a ho rs) /\ h !! rs = Some (OStacks rows) /\
      index rows a = Some r.
Proof.
  unfold armStack. intros Hrun.
  apply mbind_inv in Hrun as [(rs & h1 & Hst & Hrun) | (e & Hst & ->)];
    apply getStacks_inv in Hst as [-> Hst]; [|done].
  destruct (Hst rs eq_refl) as (a & ho & Hl).
  rewrite (mbind_run _ _ _ _ _ (getArm_run _ _ _ _ _ Hl)) in Hrun.
  apply mbind_inv in Hrun as [(rows & h2 & Hrows & Hrun) | (e & Hrows & ->)];
    apply readStacks_inv in Hrows as [-> Hrows]; [|done].
  specialize (Hrows rows eq_refl).
  destruct (index rows a) as [r|] eqn:Hr; injection Hrun as <- <-;
    (split; [done|]); intros r' [= <-].
  by exists a, ho, rs, rows.
Qed.

(** [cloneState] leaves every object of the heap as it was, and the state it
    returns, its array of stacks and every stack are new objects. *)
Lemma cloneState_h_inv h0 (s : loc) (r : result loc) h' :
  cloneState_h s h0 = (r, h') ->
  h0 ⊆ h' /\
  forall l, r = Return l ->
    exists a ho rs rows,
      h' !! l = Some (OState a ho rs) /\ h' !! rs = Some (OStacks rows) /\
      h0 !! l = None /\ h0 !! rs = None /\
      Forall (fun r => h0 !! r = None) rows.
Proof.
  unfold cloneState_h. intros Hrun.
  apply mbind_inv in Hrun as [(rs & h1 & Halloc & Hrun) | (e & Halloc & ->)].
  2: { by apply (alloc_inv h0) in Halloc as (c' & [=] & _). }
  apply (alloc_inv h0) in Halloc as (? & [= <-] & -> & _ & Hrs0 & Hsub1);
    [|done].
  apply mbind_inv in Hrun as [(st & h2 & Hst & Hrun) | (e & Hst & ->)];
    apply getStacks_inv in Hst as [-> _]; [|done].
  apply mbind_inv in Hrun as [(rows & h2 & Hrows & Hrun) | (e & Hrows & ->)];
    apply readStacks_inv in Hrows as [-> _]; [|done].
  apply mbind_inv in Hrun as [([] & h2 & Hloop & Hrun) | (e & Hloop & ->)];
    apply (cloneRows_inv h0) with (acc := []) in Hloop
      as [Hsub2 (new & Hrs2 & Hnew)];
    try done; try (by rewrite lookup_insert_eq).
  simpl in Hrs2, Hnew.
  apply mbind_inv in Hrun as [(a & h3 & Ha & Hrun) | (e & Ha & ->)];
    apply getArm_inv in Ha as [-> _]; [|done].
  apply mbind_inv in Hrun as [(ho & h3 & Hho & Hrun) | (e & Hho & ->)];
    apply getHolding_inv in Hho as [-> _]; [|done].
  apply (alloc_inv h0) in Hrun as (l & -> & -> & Hl2 & Hl0 & Hsub3); [|done].
  split; [done|]. intros ? [= <-]. exists a, ho, rs, new.
  rewrite lookup_insert_eq, lookup_insert_ne by congruence. done.
Qed.

(** Every object of the heap before [performAction] is the same after it,
    whatever the action and whether it returns or throws. *)
Lemma performAction_h_frame (a : string) (s : loc) h (r : result (loc * string)) h' :
  performAction_h a s h = (r, h') -> h ⊆ h'.
Proof.
  unfold performAction_h. intros Hrun.
  apply mbind_inv in Hrun as [(l & h1 & Hclone & Hrun) | (e & Hclone & ->)];
    apply cloneState_h_inv in Hclone as [Hsub Hnew]; [|done].
  destruct (Hnew l eq_refl) as (a0 & ho & rs & rows & Hl & Hrs & Hl0 & Hrs0 & Hrows0).
  assert (Hbody : forall (m : M unit) r' h2, m h1 = (r', h2) -> h ⊆ h2 ->
            mbind m (fun _ => mret (l, a)) h1 = (r, h') -> h ⊆ h').
  { intros m r' h2 Hm Hsub2 Hk. unfold mbind in Hk. rewrite Hm in Hk.
    destruct r'; injection Hk as <- <-; done. }
  assert (HsetA : forall v r' h2 h3, h ⊆ h2 -> setArm l v h2 = (r', h3) -> h ⊆ h3).
  { intros v r' h2 h3 Hsub2 [-> | [o ->]]%setArm_inv; [done|].
    by apply insert_subseteq_r. }
  assert (HsetH : forall v r' h2 h3, h ⊆ h2 -> setHolding l v h2 = (r', h3) -> h ⊆ h3).
  { intros v r' h2 h3 Hsub2 [-> | [o ->]]%setHolding_inv; [done|].
    by apply insert_subseteq_r. }
  assert (Harm : forall res h2, armStack l h1 = (res, h2) ->
            h2 = h1 /\ forall r0, res = Return r0 -> h !! r0 = None).
  { intros res h2 [-> Hr0]%armStack_inv. split; [done|]. intros r0 ->.
    destruct (Hr0 r0 eq_refl) as (a1 & ho1 & rs1 & rows1 & Hl1 & Hrs1 & Hidx).
    rewrite Hl in Hl1. injection Hl1 as <- <- <-.
    rewrite Hrs in Hrs1. injection Hrs1 as <-.
    apply index_elem_of in Hidx. by eapply Forall_forall in Hrows0. }
  destruct (String.eqb a "l");
    [|destruct (String.eqb a "r");
      [|destruct (String.eqb a "p"); [|destruct (String.eqb a "d")]]].
  - (* l *)
    destruct (mbind (getArm s) (fun a => setArm l (a - 1)) h1) as [r' h2] eqn:Hm.
    eapply Hbody; [exact Hm| |exact Hrun].
    apply mbind_inv in Hm as [(v & h3 & Hget & Hset) | (e & Hget & ->)];
      apply getArm_inv in Hget as [-> _]; [|done]. eauto.
  - (* r *)
    destruct (mbind (getArm s) (fun a => setArm l (a + 1)) h1) as [r' h2] eqn:Hm.
    eapply Hbody; [exact Hm| |exact Hrun].
    apply mbind_inv in Hm as [(v & h3 & Hget & Hset) | (e & Hget & ->)];
      apply getArm_inv in Hget as [-> _]; [|done]. eauto.
  - (* p *)
    match type of Hrun with mbind ?m _ _ = _ =>
      destruct (m h1) as [r' h2] eqn:Hm end.
    eapply Hbody; [exact Hm| |exact Hrun].
    apply mbind_inv in Hm as [(r0 & h3 & Hr0 & Hm) | (e & Hr0 & ->)];
      apply Harm in Hr0 as [-> Hfresh]; [|done].
    specialize (Hfresh r0 eq_refl).
    apply mbind_inv in Hm as [(cs & h3 & Hcs & Hm) | (e & Hcs & ->)];
      apply readStack_inv in Hcs as [-> _]; [|done].
    unfold store in Hm at 1. unfold mbind at 1 in Hm.
    eapply HsetH; [|exact Hm]. by apply insert_subseteq_r.
  - (* d *)
    match type of Hrun with mbind ?m _ _ = _ =>
      destruct (m h1) as [r' h2] eqn:Hm end.
    eapply Hbody; [exact Hm| |exact Hrun].
    apply mbind_inv in Hm as [(r0 & h3 & Hr0 & Hm) | (e & Hr0 & ->)];
      apply Harm in Hr0 as [-> Hfresh]; [|done].
    specialize (Hfresh r0 eq_refl).
    apply mbind_inv in Hm as [(v & h3 & Hv & Hm) | (e & Hv & ->)];
      apply getHolding_inv in Hv as [-> _]; [|done].
    apply mbind_inv in Hm as [(cs & h3 & Hcs & Hm) | (e & Hcs & ->)];
      apply readStack_inv in Hcs as [-> _]; [|done].
    unfold store in Hm at 1. unfold mbind at 1 in Hm.
    eapply HsetH; [|exact Hm]. by apply insert_subseteq_r.
  - (* an unknown action *)
    by injection Hrun as <- <-.
Qed.

(** ** The object-level functions refine the value-level ones *)

Lemma readRow_Some h (r : loc) (cs : list jsval) :
  readRow h r = Some cs <-> h !! r = Some (OStack cs).
Proof.
  unfold readRow. destruct (h !! r) as [[| |cs']|]; split; try done;
    by intros [= ->].
Qed.

Lemma absState_Some h (l : loc) (st : State) :
  absState h l = Some st <->
  exists rs rows,
    h !! l = Some (OState (arm st) (holding st) rs) /\
    h !! rs = Some (OStacks rows) /\ rowsAre h rows (stacks st).
Proof.
  unfold absState, rowsAre. split.
  - destruct (h !! l) as [[a ho rs| |]|] eqn:Hl; try done.
    destruct (h !! rs) as [[|rows|]|] eqn:Hrs; try done.
    destruct (mapM (readRow h) rows) as [ss|] eqn:Hss; [|done].
    intros [= <-]. exists rs, rows. simpl. split_and!; [done..|].
    apply mapM_Some in Hss. eapply Forall2_impl; [exact Hss|].
    intros r cs. apply readRow_Some.
  - intros (rs & rows & -> & -> & Hrows).
    assert (Hss : mapM (readRow h) rows = Some (stacks st)).
    { apply mapM_Some. eapply Forall2_impl; [exact Hrows|].
      intros r cs. apply readRow_Some. }
    rewrite Hss. by destruct st.
Qed.

Lemma rowsAre_weaken h h' rows ss :
  (forall r cs, r ∈ rows -> h !! r = Some (OStack cs) -> h' !! r = Some (OStack cs)) ->
  rowsAre h rows ss -> rowsAre h' rows ss.
Proof.
  intros Hmono Hrows. induction Hrows as [|r cs rows ss Hr _ IH]; constructor.
  - apply Hmono; [constructor | done].
  - apply IH. intros r' cs' Hin. apply Hmono. by constructor.
Qed.

(** A state object keeps its value when the heap grows. *)
Lemma absState_weaken h h' (l : loc) (st : State) :
  h ⊆ h' -> absState h l = Some st -> absState h' l = Some st.
Proof.
  intros Hsub (rs & rows & Hl & Hrs & Hrows)%absState_Some.
  apply absState_Some. exists rs, rows. split_and!.
  - by eapply lookup_weaken.
  - by eapply lookup_weaken.
  - eapply rowsAre_weaken; [|done]. intros r cs _ Hr. by eapply lookup_weaken.
Qed.

Lemma rowsAre_length h rows ss : rowsAre h rows ss -> length rows = length ss.
Proof. apply Forall2_length. Qed.

(** Writing one of the arrays changes that stack and no other, when no array
    is listed twice. *)
Lemma rowsAre_insert h rows ss (i : nat) (r : loc) (cs : list jsval) :
  rowsAre h rows ss -> NoDup rows -> rows !! i = Some r ->
  rowsAre (<[r := OStack cs]> h) rows (<[i := cs]> ss).
Proof.
  intros Hrows Hnd Hi. apply Forall2_same_length_lookup.
  apply Forall2_same_length_lookup in Hrows as [Hlen Hrows].
  split; [by rewrite length_insert|].
  intros j r' cs' Hj Hcs'. destruct (decide (j = i)) as [->|Hne].
  - assert (r' = r) as -> by congruence.
    rewrite list_lookup_insert_eq in Hcs'
      by (rewrite <- Hlen; by eapply lookup_lt_Some).
    injection Hcs' as <-. by rewrite lookup_insert_eq.
  - rewrite list_lookup_insert_ne in Hcs' by done.
    rewrite lookup_insert_ne; [by eapply Hrows|].
    intros <-. apply Hne. by eapply NoDup_lookup.
Qed.

(** Writing an object that is not one of the arrays changes no stack. *)
Lemma rowsAre_insert_other h rows ss (l : loc) (o : object) :
  rowsAre h rows ss -> l ∉ rows -> rowsAre (<[l := o]> h) rows ss.
Proof.
  intros Hrows Hl. eapply rowsAre_weaken; [|done].
  intros r cs Hin Hr. rewrite lookup_insert_ne; [done|]. by intros <-.
Qed.

Lemma rowsAre_elem_of h rows ss (r : loc) :
  rowsAre h rows ss -> r ∈ rows -> exists cs, h !! r = Some (OStack cs).
Proof.
  intros Hrows [i Hi]%list_elem_of_lookup.
  destruct (Forall2_lookup_l _ _ _ _ _ Hrows Hi) as (cs & _ & Hcs). eauto.
Qed.

(** On a heap where the rows of the state are arrays, the loop of
    [cloneState] returns, with [rs] extended by one new array per row, each
    holding the cells of its row. *)
Lemma cloneRows_total h0 (rs : loc) (rows : list loc) (css : list (list jsval)) :
  rowsAre h0 rows css ->
  forall h (acc : list loc) (accs : list (list jsval)),
    h0 ⊆ h -> h0 !! rs = None -> h !! rs = Some (OStacks acc) ->
    rowsAre h acc accs -> NoDup acc ->
    exists h' new,
      cloneRows rs rows h = (Return tt, h') /\
      h' !! rs = Some (OStacks (acc ++ new)) /\
      rowsAre h' (acc ++ new) (accs ++ css) /\
      NoDup (acc ++ new) /\
      (forall l o, l <> rs -> h !! l = Some o -> h' !! l = Some o).
Proof.
  induction 1 as [|r0 cs rows css Hr0 _ IH];
    intros h acc accs Hsub Hrs0 Hrs Hacc Hnd.
  - exists h, []. rewrite !app_nil_r. by split_and!.
  - simpl.
    rewrite (mbind_run _ _ _ _ cs)
      by (apply readStack_run; by eapply lookup_weaken).
    unfold alloc at 1. unfold mbind at 1.
    set (c := fresh (dom h)).
    assert (Hc : h !! c = None) by apply not_elem_of_dom, is_fresh.
    assert (Hne : c <> rs) by congruence.
    rewrite (mbind_run _ _ _ _ acc)
      by (apply readStacks_run; by rewrite lookup_insert_ne).
    unfold store at 1. unfold mbind at 1. rewrite slice_id.
    set (h2 := <[rs := OStacks (push acc c)]> (<[c := OStack cs]> h)).
    assert (Hmono : forall l o, l <> rs -> h !! l = Some o -> h2 !! l = Some o).
    { intros l o Hl Hlo. unfold h2.
      rewrite lookup_insert_ne, lookup_insert_ne by congruence. done. }
    assert (Hcacc : c ∉ acc).
    { intros [cs' Hcs']%(rowsAre_elem_of h acc accs); [congruence | done]. }
    destruct (IH h2 (push acc c) (accs ++ [cs]))
      as (h' & new & Hrun & Hrs' & Hrows' & Hnd' & Hmono').
    + unfold h2. apply insert_subseteq_r; [done|].
      apply insert_subseteq_r; [by eapply lookup_weaken_None | done].
    + done.
    + unfold h2. by rewrite lookup_insert_eq.
    + unfold push. apply Forall2_app.
      * eapply rowsAre_weaken; [|exact Hacc]. intros r cs' Hin Hr.
        apply Hmono; [congruence | done].
      * constructor; [|constructor]. unfold h2.
        rewrite lookup_insert_ne, lookup_insert_eq by congruence. done.
    + unfold push. apply NoDup_app. split_and!; [done| |apply NoDup_singleton].
      intros r Hin ->%list_elem_of_singleton. done.
    + exists h', (c :: new). unfold push in *.
      rewrite <- !app_assoc in Hrs', Hrows', Hnd'.
      rewrite <- (app_assoc accs) in Hrows'. simpl in *.
      split_and!; try done.
      intros l o Hl Hlo. apply Hmono'; [done|]. by apply Hmono.
Qed.

(** [cloneState] on a state object returns a new object with the same value,
    over new arrays none of which is listed twice. *)
Lemma cloneState_h_total h0 (s : loc) (st : State) :
  absState h0 s = Some st ->
  exists l h' rs rows,
    cloneState_h s h0 = (Return l, h') /\
    h' !! l = Some (OState (arm st) (holding st) rs) /\
    h' !! rs = Some (OStacks rows) /\
    rowsAre h' rows (stacks st) /\ NoDup rows /\ (l ∉ rows) /\
    h0 ⊆ h' /\ Forall (fun r => h0 !! r = None) (l :: rs :: rows).
Proof.
  intros (rs0 & rows0 & Hs & Hrs0 & Hrows0)%absState_Some.
  destruct (cloneState_h s h0) as [r h'] eqn:Hclone.
  pose proof (cloneState_h_inv _ _ _ _ Hclone) as [Hsub Hfresh].
  revert Hclone.
  unfold cloneState_h. unfold alloc at 1. unfold mbind at 1.
  set (rs := fresh (dom h0)).
  assert (Hrs : h0 !! rs = None) by apply not_elem_of_dom, is_fresh.
  set (h1 := <[rs := OStacks []]> h0).
  assert (Hsub1 : h0 ⊆ h1) by by apply insert_subseteq.
  rewrite (mbind_run _ _ _ _ rs0)
    by (eapply getStacks_run; by eapply lookup_weaken).
  rewrite (mbind_run _ _ _ _ rows0)
    by (eapply readStacks_run; by eapply lookup_weaken).
  destruct (cloneRows_total h0 rs rows0 (stacks st) Hrows0 h1 [] [])
    as (h2 & new & Hrun & Hrs2 & Hrows2 & Hnd & Hmono); try done.
  { unfold h1. by rewrite lookup_insert_eq. }
  { constructor. }
  { constructor. }
  simpl in Hrs2, Hrows2, Hnd.
  rewrite (mbind_run _ _ _ _ _ Hrun).
  assert (Hs2 : h2 !! s = Some (OState (arm st) (holding st) rs0)).
  { apply Hmono; [congruence|]. by eapply lookup_weaken. }
  rewrite (mbind_run _ _ _ _ _ (getArm_run _ _ _ _ _ Hs2)).
  rewrite (mbind_run _ _ _ _ _ (getHolding_run _ _ _ _ _ Hs2)).
  unfold alloc. set (l := fresh (dom h2)).
  assert (Hl : h2 !! l = None) by apply not_elem_of_dom, is_fresh.
  assert (Hlrows : l ∉ new).
  { intros [cs' Hcs']%(rowsAre_elem_of h2 new (stacks st)); [congruence | done]. }
  intros [= <- <-].
  destruct (Hfresh l eq_refl) as (a' & ho' & rs' & rows' & Hl' & Hrs' & F1 & F2 & F3).
  rewrite lookup_insert_eq in Hl'. injection Hl' as <- <- <-.
  rewrite lookup_insert_ne, Hrs2 in Hrs' by congruence. injection Hrs' as <-.
  exists l, (<[l := OState (arm st) (holding st) rs]> h2), rs, new.
  split_and!; try done.
  - by rewrite lookup_insert_eq.
  - rewrite lookup_insert_ne by congruence. done.
  - by apply rowsAre_insert_other.
  - by repeat constructor.
Qed.

Lemma index_rows h rows ss (i : Z) :
  rowsAre h rows ss ->
  match index ss i with
  | Some cs =>
      exists r, index rows i = Some r /\ rows !! Z.to_nat i = Some r /\
                0 <= i /\ h !! r = Some (OStack cs)
  | None => index rows i = None
  end.
Proof.
  intros Hrows. unfold index. destruct (Z.leb_spec 0 i); [|done].
  destruct (ss !! Z.to_nat i) as [cs|] eqn:Hcs.
  - destruct (Forall2_lookup_r _ _ _ _ _ Hrows Hcs) as (r & Hr & Hrcs). eauto.
  - apply lookup_ge_None in Hcs. apply lookup_ge_None.
    by rewrite (rowsAre_length _ _ _ Hrows).
Qed.

(** [performAction] on a state object does what [performAction] does on its
    value: it throws the same exception, or returns a new state object whose
    value is the successor, over arrays that are new and listed once. *)
Lemma performAction_h_refines (a : string) (s : loc) h (st : State) :
  absState h s = Some st ->
  match performAction a st with
  | Return n =>
      exists l h' rs rows,
        performAction_h a s h = (Return (l, a), h') /\
        h' !! l = Some (OState (arm (state n)) (holding (state n)) rs) /\
        h' !! rs = Some (OStacks rows) /\
        rowsAre h' rows (stacks (state n)) /\ NoDup rows /\
        Forall (fun r => h !! r = None) (l :: rs :: rows)
  | Throw e => exists h', performAction_h a s h = (Throw e, h')
  end.
Proof.
  intros Hs.
  destruct (cloneState_h_total h s st Hs)
    as (l & h1 & rs & rows & Hclone & Hl & Hrs & Hrows & Hnd & Hlrows & Hsub & Hfresh).
  assert (Hs1 : exists rs0, h1 !! s = Some (OState (arm st) (holding st) rs0)).
  { apply absState_Some in Hs as (rs0 & _ & Hs & _). exists rs0.
    by eapply lookup_weaken. }
  destruct Hs1 as [rs0 Hs1].
  assert (Hlrs : l <> rs) by congruence.
  unfold performAction_h, performAction.
  rewrite (mbind_run _ _ _ _ _ Hclone), cloneState_id.
  destruct (String.eqb a "l");
    [|destruct (String.eqb a "r");
      [|destruct (String.eqb a "p"); [|destruct (String.eqb a "d")]]].
  - (* l *)
    rewrite (mbind_run _ _ _
               (<[l := OState (arm st - 1) (holding st) rs]> h1) tt).
    2: { rewrite (mbind_run _ _ _ _ _ (getArm_run _ _ _ _ _ Hs1)).
         by eapply setArm_run. }
    eexists l, _, rs, rows. simpl. split_and!; try done.
    + by rewrite lookup_insert_eq.
    + by rewrite lookup_insert_ne.
    + by apply rowsAre_insert_other.
  - (* r *)
    rewrite (mbind_run _ _ _
               (<[l := OState (arm st + 1) (holding st) rs]> h1) tt).
    2: { rewrite (mbind_run _ _ _ _ _ (getArm_run _ _ _ _ _ Hs1)).
         by eapply setArm_run. }
    eexists l, _, rs, rows. simpl. split_and!; try done.
    + by rewrite lookup_insert_eq.
    + by rewrite lookup_insert_ne.
    + by apply rowsAre_insert_other.
  - (* p *)
    pose proof (index_rows h1 rows (stacks st) (arm st) Hrows) as Hidx.
    unfold armStack. rewrite ?mbind_assoc.
    rewrite (mbind_run _ _ _ _ _ (getStacks_run _ _ _ _ _ Hl)), ?mbind_assoc.
    rewrite (mbind_run _ _ _ _ _ (getArm_run _ _ _ _ _ Hl)), ?mbind_assoc.
    rewrite (mbind_run _ _ _ _ _ (readStacks_run _ _ _ Hrs)).
    destruct (index (stacks st) (arm st)) as [cs|] eqn:Hcs.
    + destruct Hidx as (r & Hr & Hr' & Harm & Hrcs). rewrite Hr.
      rewrite ?mbind_assoc, mbind_mret, ?mbind_assoc.
      rewrite (mbind_run _ _ _ _ _ (readStack_run _ _ _ Hrcs)), ?mbind_assoc.
      unfold store at 1. unfold mbind at 1.
      assert (Hlr : l <> r) by congruence.
      assert (Hrsr : rs <> r) by congruence.
      rewrite (mbind_run _ _ _
        (<[l := OState (arm st) (fst (pop cs)) rs]>
           (<[r := OStack (snd (pop cs))]> h1)) tt)
        by (eapply setHolding_run; rewrite lookup_insert_ne by done; exact Hl).
      destruct (pop cs) as [top rest] eqn:Hpop.
      eexists l, _, rs, rows. simpl. split_and!; try done.
      * by rewrite lookup_insert_eq.
      * by rewrite !lookup_insert_ne.
      * apply rowsAre_insert_other; [|done]. unfold setIndex.
        destruct (Z.leb_spec 0 (arm st)); [|lia]. by apply rowsAre_insert.
    + rewrite Hidx, ?mbind_assoc, mbind_mthrow. by eexists.
  - (* d *)
    pose proof (index_rows h1 rows (stacks st) (arm st) Hrows) as Hidx.
    unfold armStack. rewrite ?mbind_assoc.
    rewrite (mbind_run _ _ _ _ _ (getStacks_run _ _ _ _ _ Hl)), ?mbind_assoc.
    rewrite (mbind_run _ _ _ _ _ (getArm_run _ _ _ _ _ Hl)), ?mbind_assoc.
    rewrite (mbind_run _ _ _ _ _ (readStacks_run _ _ _ Hrs)).
    destruct (index (stacks st) (arm st)) as [cs|] eqn:Hcs.
    + destruct Hidx as (r & Hr & Hr' & Harm & Hrcs). rewrite Hr.
      rewrite ?mbind_assoc, mbind_mret, ?mbind_assoc.
      rewrite (mbind_run _ _ _ _ _ (getHolding_run _ _ _ _ _ Hl)), ?mbind_assoc.
      rewrite (mbind_run _ _ _ _ _ (readStack_run _ _ _ Hrcs)), ?mbind_assoc.
      unfold store at 1. unfold mbind at 1.
      assert (Hlr : l <> r) by congruence.
      assert (Hrsr : rs <> r) by congruence.
      rewrite (mbind_run _ _ _
        (<[l := OState (arm st) JNull rs]>
           (<[r := OStack (push cs (holding st))]> h1)) tt)
        by (eapply setHolding_run; rewrite lookup_insert_ne by done; exact Hl).
      eexists l, _, rs, rows. simpl. split_and!; try done.
      * by rewrite lookup_insert_eq.
      * by rewrite !lookup_insert_ne.
      * apply rowsAre_insert_other; [|done]. unfold setIndex.
        destruct (Z.leb_spec 0 (arm st)); [|lia]. by apply rowsAre_insert.
    + rewrite Hidx, ?mbind_assoc, mbind_mthrow. by eexists.
  - by eexists.
Qed.


End Heap.

Section CopyOnWrite.
Context `{Collaborators}.
Implicit Types h : gmap loc object.

Lemma performAction_returns (a : string) (st : State) :
  armInRange st -> a ∈ ["l"; "r"; "p"; "d"] ->
  exists st', performAction a st = Return (mkNeighb st' a).
Proof.
  intros Hst Ha. destruct (proj2 (index_is_Some _ _) Hst) as [cs Hcs].
  repeat (apply elem_of_cons in Ha as [-> | Ha]).
  - rewrite performAction_l. eauto.
  - rewrite performAction_r. eauto.
  - rewrite performAction_p, Hcs. eauto.
  - rewrite performAction_d, Hcs. eauto.
  - by apply elem_of_nil in Ha.
Qed.

(** C7. On a state object whose arm is over one of its columns, and for each
    of the labels l, r, p and d, [performAction] returns a new state object
    and leaves every object of the heap as it was, so the input state keeps
    its arm, its held value and every stack; the new state is the successor
    of the input, and the new object, its array of stacks and every stack in
    it are objects the heap did not have before: no storage is shared with
    the input, and [arm] and [holding] are values in the new object. *)
Theorem performAction_h_copy_on_write (a : string) (s : loc) h (st : State) :
  absState h s = Some st ->
  armInRange st ->
  a ∈ ["l"; "r"; "p"; "d"] ->
  exists newState h' st',
    performAction_h a s h = (Return (newState, a), h') /\
    h ⊆ h' /\
    absState h' s = Some st /\
    performAction a st = Return (mkNeighb st' a) /\
    absState h' newState = Some st' /\
    Forall (fun l => h !! l = None) (footprint h' newState).
Proof.
  intros Hs Hst Ha.
  destruct (performAction_returns a st Hst Ha) as [st' Hpure].
  pose proof (performAction_h_refines a s h st Hs) as Href.
  rewrite Hpure in Href. simpl in Href.
  destruct Href as (l & h' & rs & rows & Hrun & Hl & Hrs & Hrows & Hnd & Hfresh).
  pose proof (performAction_h_frame _ _ _ _ _ Hrun) as Hsub.
  exists l, h', st'. split_and!; try done.
  - by eapply absState_weaken.
  - apply absState_Some. by exists rs, rows.
  - unfold footprint. by rewrite Hl, Hrs.
Qed.

End CopyOnWrite.

(** ** [neighbours] on objects *)

Section NeighboursHFacts.
Context `{Collaborators}.
Variable dictionary : gmap string ObjectDefinition.
Implicit Types h : gmap loc object.

Lemma neighbRefines_weaken h h' (res : list (loc * string)) (ns : list Neighb) :
  h ⊆ h' -> Forall2 (neighbRefines h) res ns -> Forall2 (neighbRefines h') res ns.
Proof.
  intros Hsub Hres. eapply Forall2_impl; [exact Hres|].
  intros o n [Ha Hs]. split; [done|]. by eapply absState_weaken.
Qed.

Lemma footprint_absState h (l : loc) (st : State) :
  absState h l = Some st ->
  exists rs rows,
    footprint h l = l :: rs :: rows /\
    h !! l = Some (OState (arm st) (holding st) rs) /\
    h !! rs = Some (OStacks rows) /\ rowsAre h rows (stacks st).
Proof.
  intros (rs & rows & Hl & Hrs & Hrows)%absState_Some.
  exists rs, rows. unfold footprint. by rewrite Hl, Hrs.
Qed.

(** The footprint of a state object is the same on a larger heap, and every
    reference in it is to an object. *)
Lemma footprint_weaken h h' (l : loc) (st : State) :
  h ⊆ h' -> absState h l = Some st -> footprint h' l = footprint h l.
Proof.
  intros Hsub (rs & rows & Hl & Hrs & _)%absState_Some. unfold footprint.
  by rewrite Hl, Hrs, (lookup_weaken _ _ _ _ Hl Hsub),
    (lookup_weaken _ _ _ _ Hrs Hsub).
Qed.

Lemma footprint_present h (l : loc) (st : State) :
  absState h l = Some st -> Forall (fun r => is_Some (h !! r)) (footprint h l).
Proof.
  intros Hl. destruct (footprint_absState h l st Hl)
    as (rs & rows & -> & Hl' & Hrs & Hrows).
  constructor; [done|]. constructor; [done|].
  apply Forall_forall. intros r Hr.
  destruct (rowsAre_elem_of _ _ _ _ Hrows Hr) as [cs Hcs]. eauto.
Qed.

Lemma footprints_push h (res : list (loc * string)) (o : loc * string) :
  footprints h (push res o) = footprints h res ++ footprint h (fst o).
Proof.
  unfold footprints, push. rewrite map_app, concat_app. simpl.
  by rewrite app_nil_r.
Qed.

Lemma footprints_weaken h h' (res : list (loc * string)) (ns : list Neighb) :
  h ⊆ h' -> Forall2 (neighbRefines h) res ns ->
  footprints h' res = footprints h res.
Proof.
  intros Hsub Hres. unfold footprints.
  induction Hres as [|o n res ns [_ Ho] _ IH]; [done|].
  simpl. by rewrite IH, (footprint_weaken h h' _ _ Hsub Ho).
Qed.

Lemma footprints_present h (res : list (loc * string)) (ns : list Neighb) :
  Forall2 (neighbRefines h) res ns ->
  Forall (fun r => is_Some (h !! r)) (footprints h res).
Proof.
  unfold footprints.
  induction 1 as [|o n res ns [_ Ho] _ IH]; [constructor|].
  simpl. apply Forall_app. split; [by eapply footprint_present | done].
Qed.

Lemma newNeighbs_nil h0 h : newNeighbs h0 h [] [].
Proof. split_and!; constructor. Qed.

Lemma pushAction_h_refines (a : string) (s : loc) h0 h (st : State)
    (res : list (loc * string)) (ns : list Neighb) :
  h0 ⊆ h ->
  absState h s = Some st ->
  newNeighbs h0 h res ns ->
  exists out h',
    pushAction_h res a s h = (out, h') /\ h ⊆ h' /\
    match pushAction ns a st with
    | Return ns' => exists res', out = Return res' /\ newNeighbs h0 h' res' ns'
    | Throw e => out = Throw e
    end.
Proof.
  intros Hsub0 Hs (Hres & Hfresh & Hnd). unfold pushAction_h, pushAction.
  pose proof (performAction_h_refines a s h st Hs) as Href.
  destruct (performAction a st) as [n|e] eqn:Hpure; simpl.
  - destruct Href as (l & h' & rs & rows & Hrun & Hl & Hrs & Hrows & Hndrows & Hnew).
    pose proof (performAction_h_frame _ _ _ _ _ Hrun) as Hsub.
    exists (Return (push res (l, a))), h'.
    rewrite (mbind_run _ _ _ _ _ Hrun). split_and!; [done..|].
    eexists. split; [done|].
    assert (Hfp : footprint h' l = l :: rs :: rows)
      by (unfold footprint; by rewrite Hl, Hrs).
    rewrite <- (footprints_weaken h h' res ns Hsub Hres) in Hfresh, Hnd.
    split_and!.
    + unfold push. apply Forall2_app.
      * by eapply neighbRefines_weaken.
      * constructor; [|constructor]. split; simpl.
        -- symmetry. by eapply performAction_action.
        -- apply absState_Some. by exists rs, rows.
    + rewrite footprints_push. simpl. rewrite Hfp. apply Forall_app. split; [done|].
      eapply Forall_impl; [exact Hnew|]. intros r Hr. simpl in Hr.
      by eapply lookup_weaken_None.
    + rewrite footprints_push. simpl. rewrite Hfp.
      apply NoDup_app. split_and!; [done| |].
      * intros r Hold Hin.
        rewrite (footprints_weaken h h' res ns Hsub Hres) in Hold.
        pose proof (footprints_present h res ns Hres) as Hpres.
        rewrite Forall_forall in Hpres, Hnew.
        destruct (Hpres r Hold) as [o Ho]. specialize (Hnew r Hin). simpl in Hnew.
        congruence.
      * assert (Hrsrows : rs ∉ rows).
        { intros [cs Hcs]%(rowsAre_elem_of h' rows (stacks (state n)));
            [congruence|done]. }
        assert (Hlrows : l ∉ rows).
        { intros [cs Hcs]%(rowsAre_elem_of h' rows (stacks (state n)));
            [congruence|done]. }
        constructor.
        -- intros [-> | Hin]%elem_of_cons; [congruence | done].
        -- by constructor.
  - destruct Href as [h' Hrun].
    pose proof (performAction_h_frame _ _ _ _ _ Hrun) as Hsub.
    exists (Throw e), h'. by rewrite (mbind_throw _ _ _ _ _ Hrun).
Qed.

(** The same for an action pushed under a condition. *)
Lemma pushAction_h_if (c : bool) (a : string) (s : loc) h0 h (st : State)
    (res : list (loc * string)) (ns : list Neighb) :
  h0 ⊆ h ->
  absState h s = Some st ->
  newNeighbs h0 h res ns ->
  exists out h',
    (if c then pushAction_h res a s else mret res) h = (out, h') /\ h ⊆ h' /\
    match (if c then pushAction ns a st else Return ns) with
    | Return ns' => exists res', out = Return res' /\ newNeighbs h0 h' res' ns'
    | Throw e => out = Throw e
    end.
Proof.
  intros Hsub0 Hs Hres. destruct c; [by apply pushAction_h_refines|].
  exists (Return res), h. split_and!; [done..|]. eauto.
Qed.

(** X19. [neighbours] on a state object does what [neighbours] does on its
    value, and leaves every object of the heap as it was: it throws the same
    exception, or returns, in the same order and under the same labels, state
    objects whose values are the successors. These are new objects: nothing
    a returned state object reaches (itself, its array of stacks, a stack)
    was in the heap before the call, and no two returned objects reach a
    common object. *)
Theorem neighbours_h_refines (s : loc) h (st : State) :
  absState h s = Some st ->
  exists out h',
    neighbours_h dictionary s h = (out, h') /\ h ⊆ h' /\
    match neighbours dictionary st with
    | Return ns =>
        exists res,
          out = Return res /\ Forall2 (neighbRefines h') res ns /\
          Forall (fun l => h !! l = None) (footprints h' res) /\
          NoDup (footprints h' res)
    | Throw e => out = Throw e
    end.
Proof.
  intros Hs.
  pose proof Hs as (rs0 & rows0 & Hl & Hrs & Hrows)%absState_Some.
  unfold neighbours_h, neighbours.
  rewrite (mbind_run _ _ _ _ _ (getStacks_run _ _ _ _ _ Hl)).
  rewrite (mbind_run _ _ _ _ _ (readStacks_run _ _ _ Hrs)).
  rewrite (mbind_run _ _ _ _ _ (getArm_run _ _ _ _ _ Hl)).
  rewrite (rowsAre_length _ _ _ Hrows).
  (* left *)
  destruct (pushAction_h_if (0 <? arm st) "l" s h h st [] [] (reflexivity h) Hs
              (newNeighbs_nil h h))
    as (out1 & h1 & Hrun1 & Hsub1 & Hout1).
  assert (Hl1 : exists ns1,
            (if 0 <? arm st then pushAction [] "l" st else Return []) = Return ns1).
  { unfold pushAction. rewrite performAction_l. destruct (0 <? arm st); eauto. }
  destruct Hl1 as [ns1 Hns1]. rewrite Hns1 in Hout1 |- *.
  destruct Hout1 as (res1 & -> & Hres1).
  rewrite (mbind_run _ _ _ _ _ Hrun1). simpl.
  assert (Hs1 : absState h1 s = Some st) by by eapply absState_weaken.
  (* right *)
  rewrite (mbind_run _ _ _ h1 (arm st))
    by (eapply getArm_run; by eapply lookup_weaken).
  destruct (pushAction_h_if (arm st <? Z.of_nat (length (stacks st)) - 1)
              "r" s h h1 st res1 ns1 Hsub1 Hs1 Hres1)
    as (out2 & h2 & Hrun2 & Hsub2 & Hout2).
  assert (Hr2 : exists ns2,
            (if arm st <? Z.of_nat (length (stacks st)) - 1
             then pushAction ns1 "r" st else Return ns1) = Return ns2).
  { unfold pushAction. rewrite performAction_r.
    destruct (arm st <? Z.of_nat (length (stacks st)) - 1); eauto. }
  destruct Hr2 as [ns2 Hns2]. rewrite Hns2 in Hout2 |- *.
  destruct Hout2 as (res2 & -> & Hres2).
  rewrite (mbind_run _ _ _ _ _ Hrun2). simpl.
  assert (Hsub02 : h ⊆ h2) by by etrans.
  assert (Hs2 : absState h2 s = Some st) by by eapply absState_weaken.
  pose proof Hs2 as (rs2 & rows2 & Hl2 & Hrs2 & Hrows2)%absState_Some.
  (* the hand and the column under the arm *)
  rewrite (mbind_run _ _ _ _ _ (getHolding_run _ _ _ _ _ Hl2)).
  pose proof (index_rows h2 rows2 (stacks st) (arm st) Hrows2) as Hidx.
  assert (Harm : armStack s h2 =
            match index rows2 (arm st) with
            | Some r => (Return r, h2)
            | None => (Throw TypeError, h2)
            end).
  { unfold armStack.
    rewrite (mbind_run _ _ _ _ _ (getStacks_run _ _ _ _ _ Hl2)).
    rewrite (mbind_run _ _ _ _ _ (getArm_run _ _ _ _ _ Hl2)).
    rewrite (mbind_run _ _ _ _ _ (readStacks_run _ _ _ Hrs2)).
    by destruct (index rows2 (arm st)). }
  destruct (index (stacks st) (arm st)) as [cs|] eqn:Hcs.
  - destruct Hidx as (r & Hr & _ & _ & Hrcs). rewrite Hr in Harm.
    destruct (isNullish (holding st)).
    + rewrite (mbind_run _ _ _ _ _ Harm).
      rewrite (mbind_run _ _ _ _ _ (readStack_run _ _ _ Hrcs)).
      destruct (pushAction_h_if (0 <? Z.of_nat (length cs)) "p" s h h2 st
                  res2 ns2 Hsub02 Hs2 Hres2) as (out3 & h3 & Hrun3 & Hsub3 & Hout3).
      exists out3, h3. split_and!; [done|by etrans|done].
    + rewrite (mbind_run _ _ _ _ _ Harm).
      rewrite (mbind_run _ _ _ _ _ (readStack_run _ _ _ Hrcs)).
      destruct (0 <? Z.of_nat (length cs)).
      * rewrite (mbind_run _ _ _ _ _ (getHolding_run _ _ _ _ _ Hl2)).
        destruct (pushAction_h_if
                    (canSupport dictionary (holding st)
                       (default JUndefined
                          (index cs (Z.of_nat (length cs) - 1))))
                    "d" s h h2 st res2 ns2 Hsub02 Hs2 Hres2)
          as (out3 & h3 & Hrun3 & Hsub3 & Hout3).
        exists out3, h3. split_and!; [done|by etrans|done].
      * destruct (pushAction_h_refines "d" s h h2 st res2 ns2 Hsub02 Hs2 Hres2)
          as (out3 & h3 & Hrun3 & Hsub3 & Hout3).
        exists out3, h3. split_and!; [done|by etrans|done].
  - rewrite Hidx in Harm.
    destruct (isNullish (holding st));
      rewrite (mbind_throw _ _ _ _ _ Harm); by exists (Throw TypeError), h2.
Qed.

End NeighboursHFacts.

(** ** The plan driver *)

Section DriverFacts.
Context `{Collaborators}.
Variable ws : WorldState.

Lemma planInterpretation_run (i : list (list Literal)) (σ : Store) :
  planInterpretation i ws σ =
  (rmap shift (searchOutcome ws i),
   mkStore (records σ) (Some (ws_objects ws))).
Proof.
  unfold planInterpretation, searchOutcome, mbind, setWorldDictionary, lift, rmap.
  by destruct (Astar_astar _ _ _ _ _ _ _).
Qed.

Lemma sameGoals_refl σ : sameGoals σ σ.
Proof. done. Qed.

Lemma sameGoals_trans σ1 σ2 σ3 :
  sameGoals σ1 σ2 -> sameGoals σ2 σ3 -> sameGoals σ1 σ3.
Proof. intros H12 H23 l. by rewrite H23, H12. Qed.

Lemma searchFor_sameGoals σ σ' (l : loc) :
  sameGoals σ σ' -> searchFor ws σ' l = searchFor ws σ l.
Proof.
  intros Hsame. unfold searchFor. specialize (Hsame l).
  destruct (records σ' !! l) as [r'|], (records σ !! l) as [r|];
    simpl in Hsame; simplify_eq; congruence.
Qed.

Lemma planOne_run (l : loc) (σ : Store) :
  planOne ws l σ =
  match records σ !! l with
  | None => (Throw TypeError, σ)
  | Some r =>
      match searchOutcome ws (intp r) with
      | Return p =>
          (Return tt,
           mkStore (<[l := mkResultObject (intp r) (Some (shift p))]> (records σ))
                   (Some (ws_objects ws)))
      | Throw e => (Throw e, mkStore (records σ) (Some (ws_objects ws)))
      end
  end.
Proof.
  unfold planOne, getIntp. unfold mbind at 1.
  destruct (records σ !! l) as [r|] eqn:Hl; [|done].
  unfold mbind. rewrite planInterpretation_run.
  destruct (searchOutcome ws (intp r)) as [p|e]; simpl; [|done].
  unfold setPlan. simpl. by rewrite Hl.
Qed.

Lemma planEach_cons (l : loc) (rest plans : list loc) (σ : Store) :
  planEach (l :: rest) ws plans σ =
  mbind (planOne ws l) (fun _ => planEach rest ws (push plans l)) σ.
Proof.
  simpl. unfold planOne. unfold mbind.
  destruct (getIntp l σ) as [[i|e] σ1]; [|done].
  destruct (planInterpretation i ws σ1) as [[p|e] σ2]; [|done].
  by destruct (setPlan l p σ2) as [[[]|e] σ3].
Qed.

(** What one round leaves in the store. *)
Lemma planOne_store (l : loc) (σ : Store) :
  let σ' := snd (planOne ws l σ) in
  sameGoals σ σ' /\
  (forall l', l' <> l -> records σ' !! l' = records σ !! l') /\
  dom (records σ') = dom (records σ) /\
  (worldDictionary σ' = worldDictionary σ \/
   worldDictionary σ' = Some (ws_objects ws)).
Proof.
  cbv zeta. rewrite planOne_run.
  destruct (records σ !! l) as [r|] eqn:Hl; simpl;
    [|split_and!; [done..|by left]].
  destruct (searchOutcome ws (intp r)) as [p|e]; simpl;
    [|split_and!; [done..|by right]].
  split_and!; [| |by apply dom_insert_lookup_L|by right].
  - intros l'. simpl. destruct (decide (l' = l)) as [->|Hne].
    + by rewrite lookup_insert_eq, Hl.
    + by rewrite lookup_insert_ne.
  - intros l' Hne. simpl. by rewrite lookup_insert_ne.
Qed.

Lemma planOne_outcome (l : loc) (σ : Store) :
  fst (planOne ws l σ) = rmap (fun _ => tt) (searchFor ws σ l).
Proof.
  rewrite planOne_run. unfold searchFor.
  destruct (records σ !! l) as [r|]; [|done].
  by destruct (searchOutcome ws (intp r)).
Qed.

Lemma Forall_searchReturns_sameGoals σ σ' (ls : list loc) :
  sameGoals σ σ' -> Forall (searchReturns ws σ') ls -> Forall (searchReturns ws σ) ls.
Proof.
  intros Hsame Hls. eapply Forall_impl; [exact Hls|].
  intros l [p Hp]. exists p. by rewrite <- (searchFor_sameGoals σ σ').
Qed.

(** What the loop leaves in the store: the goals as they were, the records
    outside the list as they were, no record added or removed, and
    [worldDictionary] as it was or set to the objects of the world. *)
Lemma planEach_store (interps : list loc) :
  forall (plans : list loc) (σ : Store),
    sameGoals σ (snd (planEach interps ws plans σ)) /\
    (forall l, l ∉ interps ->
       records (snd (planEach interps ws plans σ)) !! l = records σ !! l) /\
    dom (records (snd (planEach interps ws plans σ))) = dom (records σ) /\
    (worldDictionary (snd (planEach interps ws plans σ)) = worldDictionary σ \/
     worldDictionary (snd (planEach interps ws plans σ)) = Some (ws_objects ws)).
Proof.
  induction interps as [|l rest IH]; intros plans σ.
  - simpl. split_and!; [done..|by left].
  - rewrite planEach_cons. unfold mbind.
    destruct (planOne_store l σ) as (Hsame & Hother & Hdom & Hwd).
    destruct (planOne ws l σ) as [[[]|e] σ1] eqn:Hone; simpl in *.
    + destruct (IH (push plans l) σ1) as (Hsame' & Hother' & Hdom' & Hwd').
      split_and!.
      * by eapply sameGoals_trans.
      * intros l' Hl'. apply not_elem_of_cons in Hl' as [Hne Hl'].
        by rewrite Hother', Hother.
      * by rewrite Hdom'.
      * destruct Hwd' as [-> | ->]; auto.
    + split_and!; try done. intros l' Hl'. apply Hother.
      by apply not_elem_of_cons in Hl' as [Hne _].
Qed.

(** How the loop ends: with every interpretation pushed, when every search
    returns; or with the exception of the first search that throws. *)
Lemma planEach_outcome (interps : list loc) :
  forall (plans : list loc) (σ : Store),
    match fst (planEach interps ws plans σ) with
    | Return plans' =>
        plans' = plans ++ interps /\ Forall (searchReturns ws σ) interps
    | Throw e =>
        exists before l after,
          interps = before ++ l :: after /\
          Forall (searchReturns ws σ) before /\ searchFor ws σ l = Throw e
    end.
Proof.
  induction interps as [|l rest IH]; intros plans σ.
  - simpl. by rewrite app_nil_r.
  - rewrite planEach_cons. unfold mbind.
    pose proof (planOne_outcome l σ) as Hout.
    destruct (planOne_store l σ) as (Hsame & _).
    destruct (planOne ws l σ) as [[[]|e] σ1] eqn:Hone; simpl in *.
    + assert (Hl : searchReturns ws σ l).
      { unfold searchReturns. destruct (searchFor ws σ l); [eauto | done]. }
      specialize (IH (push plans l) σ1).
      destruct (fst (planEach rest ws (push plans l) σ1)) as [plans'|e].
      * destruct IH as [-> Hrest]. unfold push. rewrite <- app_assoc.
        split; [done|]. constructor; [done|].
        by eapply Forall_searchReturns_sameGoals.
      * destruct IH as (before & l' & after & -> & Hbefore & Hl').
        exists (l :: before), l', after. split_and!; [done| |].
        -- constructor; [done|]. by eapply Forall_searchReturns_sameGoals.
        -- by rewrite <- (searchFor_sameGoals σ σ1).
    + exists [], l, rest. split_and!; [done|constructor|].
      unfold rmap in Hout. destruct (searchFor ws σ l); simpl in Hout; congruence.
Qed.

(** After a loop that returns, every record of the list has its goal and, as
    its plan, the path its search returned without the first element. *)
Lemma planEach_plans (interps : list loc) :
  forall (plans plans' : list loc) (σ σ' : Store),
    planEach interps ws plans σ = (Return plans', σ') ->
    forall l, l ∈ interps ->
      exists r p,
        records σ !! l = Some r /\ searchOutcome ws (intp r) = Return p /\
        records σ' !! l = Some (mkResultObject (intp r) (Some (shift p))).
Proof.
  induction interps as [|l0 rest IH]; intros plans plans' σ σ' Hrun l Hl.
  - by apply elem_of_nil in Hl.
  - rewrite planEach_cons in Hrun. unfold mbind in Hrun.
    destruct (planOne_store l0 σ) as (Hsame & _).
    rewrite planOne_run in Hrun, Hsame.
    destruct (records σ !! l0) as [r0|] eqn:Hl0; [|done].
    destruct (searchOutcome ws (intp r0)) as [p0|e] eqn:Hp0; [|done].
    simpl in Hsame.
    destruct (decide (l ∈ rest)) as [Hin|Hnotin].
    + destruct (IH _ _ _ _ Hrun l Hin) as (r1 & p1 & Hr1 & Hp1 & Hr').
      specialize (Hsame l). rewrite Hr1 in Hsame. simpl in Hsame.
      destruct (records σ !! l) as [r|] eqn:Hr; [|done].
      injection Hsame as Hsame. exists r, p1. rewrite <- Hsame. done.
    + apply elem_of_cons in Hl as [-> | Hl]; [|done].
      exists r0, p0. split_and!; [done..|].
      destruct (planEach_store rest (push plans l0)
                  (mkStore (<[l0 := mkResultObject (intp r0) (Some (shift p0))]>
                              (records σ)) (Some (ws_objects ws))))
        as (_ & Hother & _).
      rewrite Hrun in Hother. simpl in Hother.
      rewrite (Hother l0 Hnotin). by rewrite lookup_insert_eq.
Qed.


Lemma plan_run (interps : list loc) (σ : Store) :
  plan interps ws σ =
  match planEach interps ws [] σ with
  | (Return plans, σ') =>
      if 0 <? Z.of_nat (length plans) then (Return plans, σ')
      else (Throw (PlannerError "Found no plans"), σ')
  | (Throw e, σ') => (Throw e, σ')
  end.
Proof.
  unfold plan, mbind. destruct (planEach interps ws [] σ) as [[plans|e] σ']; [|done].
  by destruct (0 <? Z.of_nat (length plans)).
Qed.

Lemma plan_nil (σ : Store) :
  plan [] ws σ = (Throw (PlannerError "Found no plans"), σ).
Proof. done. Qed.

(** With an interpretation, the array the loop returns is not empty. *)
Lemma plan_nonempty (interps : list loc) (σ : Store) :
  interps <> [] -> plan interps ws σ = planEach interps ws [] σ.
Proof.
  intros Hne. rewrite plan_run.
  pose proof (planEach_outcome interps [] σ) as Hout.
  destruct (planEach interps ws [] σ) as [[plans|e] σ']; [|done].
  simpl in Hout. destruct Hout as [-> _]. simpl.
  by destruct interps.
Qed.

Lemma planEach_app (xs ys plans : list loc) (σ : Store) :
  planEach (xs ++ ys) ws plans σ =
  mbind (planEach xs ws plans) (fun plans' => planEach ys ws plans') σ.
Proof.
  revert plans σ. induction xs as [|x xs IH]; intros plans σ; [done|].
  rewrite <- app_comm_cons, planEach_cons. unfold mbind.
  rewrite planEach_cons. unfold mbind.
  destruct (planOne ws x σ) as [[[]|e] σ1]; [|done].
  rewrite IH. done.
Qed.

(** A loop over interpretations whose searches all return, returns. *)
Lemma planEach_returns (interps plans : list loc) (σ : Store) :
  Forall (searchReturns ws σ) interps ->
  exists σ', planEach interps ws plans σ = (Return (plans ++ interps), σ').
Proof.
  intros Hall. pose proof (planEach_outcome interps plans σ) as Hout.
  destruct (planEach interps ws plans σ) as [[plans'|e] σ'] eqn:Hrun;
    simpl in Hout.
  - destruct Hout as [-> _]. eauto.
  - destruct Hout as (before & l & after & -> & _ & Hl).
    apply Forall_app in Hall as [_ Hall].
    apply Forall_cons in Hall as [[p Hp] _]. congruence.
Qed.

(** With a record as the first interpretation, [worldDictionary] is the
    objects of the world when the loop ends, however it ends. *)
Lemma planEach_worldDictionary (l : loc) (rest plans : list loc) (σ : Store) :
  is_Some (records σ !! l) ->
  worldDictionary (snd (planEach (l :: rest) ws plans σ)) = Some (ws_objects ws).
Proof.
  intros [r Hr]. rewrite planEach_cons. unfold mbind. rewrite planOne_run, Hr.
  destruct (searchOutcome ws (intp r)) as [p|e]; [|done].
  match goal with
  | |- context [planEach rest ws ?ps ?σ1] =>
      destruct (planEach_store rest ps σ1) as (_ & _ & _ & [-> | ->])
  end; done.
Qed.

Lemma plan_store (interps : list loc) (σ : Store) :
  snd (plan interps ws σ) = snd (planEach interps ws [] σ).
Proof.
  rewrite plan_run. destruct (planEach interps ws [] σ) as [[plans|e] σ']; [|done].
  by destruct (0 <? Z.of_nat (length plans)).
Qed.

(** C10, as the code has it. With no interpretation [plan] throws
    [Planner.Error] with the message "Found no plans" and leaves the store as
    it is, and that is the only case in which [plan] itself throws: with at
    least one interpretation [plan] ends as its loop ends. When every search
    returns it returns the interpretation records, one for each
    interpretation, in input order; otherwise it returns no array and throws
    the exception of the first search that throws. So every exception of
    [plan] is "Found no plans" for no interpretation, or the exception a
    search threw; and whenever [plan] returns, there was an interpretation,
    every search returned, and the array is the interpretations. *)
Theorem plan_found_no_plans (interps : list loc) (σ : Store) :
  (interps = [] ->
     plan interps ws σ = (Throw (PlannerError "Found no plans"), σ)) /\
  (interps <> [] -> plan interps ws σ = planEach interps ws [] σ) /\
  (interps <> [] -> Forall (searchReturns ws σ) interps ->
     fst (plan interps ws σ) = Return interps) /\
  (forall before l after e,
     interps = before ++ l :: after ->
     Forall (searchReturns ws σ) before -> searchFor ws σ l = Throw e ->
     fst (plan interps ws σ) = Throw e) /\
  (forall e,
     fst (plan interps ws σ) = Throw e ->
     (interps = [] /\ e = PlannerError "Found no plans") \/
     (exists before l after,
        interps = before ++ l :: after /\
        Forall (searchReturns ws σ) before /\ searchFor ws σ l = Throw e)) /\
  (forall plans,
     fst (plan interps ws σ) = Return plans ->
     plans = interps /\ length plans = length interps /\
     interps <> [] /\ Forall (searchReturns ws σ) interps).
Proof.
  pose proof (planEach_outcome interps [] σ) as Hout.
  split_and!.
  - intros ->. apply plan_nil.
  - apply plan_nonempty.
  - intros Hne Hall. rewrite plan_nonempty by done.
    destruct (fst (planEach interps ws [] σ)) as [plans|e].
    + by destruct Hout as [-> _].
    + destruct Hout as (before & l & after & -> & _ & Hl).
      apply Forall_app in Hall as [_ Hall]. apply Forall_cons in Hall as [[p Hp] _].
      congruence.
  - intros before l after e -> Hbefore Hl.
    rewrite plan_nonempty by by destruct before.
    rewrite planEach_app.
    destruct (planEach_returns before [] σ Hbefore) as [σ1 Hrun1].
    rewrite (mbind_run _ _ _ _ _ Hrun1).
    destruct (planEach_store before [] σ) as (Hsame & _).
    rewrite Hrun1 in Hsame. simpl in Hsame.
    rewrite planEach_cons. unfold mbind.
    pose proof (planOne_outcome l σ1) as Hone.
    rewrite (searchFor_sameGoals σ σ1), Hl in Hone by done.
    by destruct (planOne ws l σ1) as [[[]|e'] σ2]; simpl in Hone; simplify_eq.
  - intros e He. destruct interps as [|l0 rest].
    + rewrite plan_nil in He. injection He as <-. by left.
    + right. rewrite plan_nonempty in He by done. by rewrite He in Hout.
  - intros plans Hret. destruct interps as [|l rest]; [by rewrite plan_nil in Hret|].
    rewrite plan_nonempty in Hret by done. rewrite Hret in Hout.
    simpl in Hout. by destruct Hout as [-> Hall].
Qed.


(** C6, as the code has it. A call of [plan] leaves the goal of every record
    and the set of records as they were, and every record that is not in its
    argument entirely as it was. Every call of [planInterpretation] assigns
    the objects of the world to [worldDictionary], so after [plan]
    [worldDictionary] is the objects of the world whenever the first
    interpretation is a record, whatever it was before and however [plan]
    ends; the store is as it was only when there is no interpretation, or
    when the first one is no record and [plan] throws a [TypeError] at once.
    [plan] writes the [plan] field of the records of its argument in place:
    when it returns, it returns the records of its argument, each with its
    goal and with the path its search returned, less the first element, as
    its plan; and when a search throws, the records before that one have
    been written in the same way. *)
Theorem plan_effects (interps : list loc) (σ : Store) :
  sameGoals σ (snd (plan interps ws σ)) /\
  (forall l, l ∉ interps ->
     records (snd (plan interps ws σ)) !! l = records σ !! l) /\
  dom (records (snd (plan interps ws σ))) = dom (records σ) /\
  (forall i σ0,
     snd (planInterpretation i ws σ0) =
     mkStore (records σ0) (Some (ws_objects ws))) /\
  (forall l rest, interps = l :: rest -> is_Some (records σ !! l) ->
     worldDictionary (snd (plan interps ws σ)) = Some (ws_objects ws)) /\
  (forall l rest, interps = l :: rest -> records σ !! l = None ->
     plan interps ws σ = (Throw TypeError, σ)) /\
  (interps = [] -> snd (plan interps ws σ) = σ) /\
  (forall plans, fst (plan interps ws σ) = Return plans ->
     plans = interps /\
     forall l, l ∈ interps ->
       exists r p,
         records σ !! l = Some r /\ searchOutcome ws (intp r) = Return p /\
         records (snd (plan interps ws σ)) !! l =
         Some (mkResultObject (intp r) (Some (shift p)))) /\
  (forall before l after e,
     interps = before ++ l :: after ->
     Forall (searchReturns ws σ) before -> searchFor ws σ l = Throw e ->
     forall l', l' ∈ before ->
       exists r p,
         records σ !! l' = Some r /\ searchOutcome ws (intp r) = Return p /\
         records (snd (plan interps ws σ)) !! l' =
         Some (mkResultObject (intp r) (Some (shift p)))).
Proof.
  rewrite plan_store.
  destruct (planEach_store interps [] σ) as (Hsame & Hother & Hdom & _).
  split_and!; try done.
  - intros i σ0. by rewrite planInterpretation_run.
  - intros l rest -> Hl. by apply planEach_worldDictionary.
  - intros l rest -> Hl. rewrite plan_nonempty by done.
    rewrite planEach_cons. unfold mbind. by rewrite planOne_run, Hl.
  - by intros ->.
  - intros plans Hret. rewrite plan_run in Hret.
    pose proof (planEach_outcome interps [] σ) as Hout.
    destruct (planEach interps ws [] σ) as [[plans'|e] σ'] eqn:Hrun; [|done].
    simpl in Hout. destruct Hout as [-> _].
    destruct (0 <? Z.of_nat (length interps)); [|done].
    simpl in Hret. injection Hret as <-. split; [done|].
    intros l Hl. by eapply planEach_plans.
  - intros before l after e -> Hbefore Hl l' Hl'.
    rewrite planEach_app.
    destruct (planEach_returns before [] σ Hbefore) as [σ1 Hrun1].
    rewrite (mbind_run _ _ _ _ _ Hrun1).
    destruct (planEach_plans before [] _ σ σ1 Hrun1 l' Hl')
      as (r & p & Hr & Hp & Hr1).
    exists r, p. split_and!; [done..|].
    destruct (planEach_store before [] σ) as (Hsame1 & _).
    rewrite Hrun1 in Hsame1. simpl in Hsame1.
    rewrite planEach_cons. unfold mbind. rewrite planOne_run.
    assert (Hl1 : searchFor ws σ1 l = Throw e)
      by by rewrite (searchFor_sameGoals σ σ1).
    unfold searchFor in Hl1.
    destruct (records σ1 !! l) as [r1|] eqn:Hr1'; [|done].
    by rewrite Hl1.
Qed.

End DriverFacts.

(** ** The goal predicate *)

Section GoalPredicate.
Context `{Collaborators}.

(** C4. A holding literal compares the held value with its operand; ontop
    and inside literals, evaluated alike, test that the height difference is
    exactly 1; an above literal tests that it is positive; each result is
    negated when the polarity is false. A literal throws in two cases only,
    those of a goal that is not well formed: its relation is none of the
    four, or it is ontop, inside or above and the height difference throws
    (the floor as the upper operand). A clause returns true iff each of its
    literals returns true. For a goal none of whose literals throws, the
    compiled goal returns a boolean, and it returns true iff at least one of
    its clauses has every literal true. Nothing is swallowed otherwise: a
    clause throws exactly when its first literal that does not return true
    throws, and the goal throws exactly when its first clause that does not
    return false throws; the goal returns true exactly when its first clause
    that does not return false returns true. *)
Theorem goal_predicate_evaluation (s : State) :
  (forall atom, rel atom = "holding" ->
     testAtom s atom =
     Return (adjust (pol atom) (bool_decide (holding s = arg atom 0)))) /\
  (forall atom, rel atom = "ontop" \/ rel atom = "inside" ->
     testAtom s atom =
     rmap (fun d => adjust (pol atom) (bool_decide (d = 1)))
          (heightDifference s (arg atom 0) (arg atom 1))) /\
  (forall atom, rel atom = "above" ->
     testAtom s atom =
     rmap (fun d => adjust (pol atom) (bool_decide (d > 0)))
          (heightDifference s (arg atom 0) (arg atom 1))) /\
  (forall atom e,
     testAtom s atom = Throw e <->
     (((rel atom ∉ ["holding"; "ontop"; "inside"; "above"]) /\
       e = PlannerError
             ("!!! Unimplemented relation in testAtom: " +:+ rel atom)) \/
      (rel atom ∈ ["ontop"; "inside"; "above"] /\
       heightDifference s (arg atom 0) (arg atom 1) = Throw e))) /\
  (forall c,
     testConjunctiveClause s c = Return true <->
     Forall (fun atom => testAtom s atom = Return true) c) /\
  (forall c,
     Forall (fun atom => exists b, testAtom s atom = Return b) c ->
     exists b, testConjunctiveClause s c = Return b) /\
  (forall c e,
     testConjunctiveClause s c = Throw e <->
     exists before atom after,
       c = before ++ atom :: after /\
       Forall (fun a => testAtom s a = Return true) before /\
       testAtom s atom = Throw e) /\
  (forall intprt,
     Forall (Forall (fun atom => exists b, testAtom s atom = Return b)) intprt ->
     (exists b, computeGoalFunction intprt s = Return b) /\
     (computeGoalFunction intprt s = Return true <->
      Exists (Forall (fun atom => testAtom s atom = Return true)) intprt)) /\
  (forall intprt,
     Forall (fun c => exists b, testConjunctiveClause s c = Return b) intprt ->
     (exists b, computeGoalFunction intprt s = Return b) /\
     (computeGoalFunction intprt s = Return true <->
      Exists (fun c => testConjunctiveClause s c = Return true) intprt)) /\
  (forall intprt,
     computeGoalFunction intprt s = Return true <->
     exists before c after,
       intprt = before ++ c :: after /\
       Forall (fun c' => testConjunctiveClause s c' = Return false) before /\
       testConjunctiveClause s c = Return true) /\
  (forall intprt e,
     computeGoalFunction intprt s = Throw e <->
     exists before c after,
       intprt = before ++ c :: after /\
       Forall (fun c' => testConjunctiveClause s c' = Return false) before /\
       testConjunctiveClause s c = Throw e).
Proof.
  split_and!.
  - apply testAtom_holding.
  - apply testAtom_ontop.
  - apply testAtom_above.
  - apply testAtom_throws.
  - apply testConjunctiveClause_true.
  - apply testConjunctiveClause_returns.
  - apply testConjunctiveClause_throws.
  - intros intprt Hwf.
    assert (Hall : Forall (fun c => exists b, testConjunctiveClause s c = Return b)
                     intprt).
    { eapply Forall_impl; [exact Hwf|]. intros c.
      apply testConjunctiveClause_returns. }
    split; [by apply computeGoalFunction_returns|].
    rewrite (computeGoalFunction_disjunction _ _ Hall).
    split; intros HE; (eapply Exists_impl; [exact HE|]); intros c;
      apply testConjunctiveClause_true.
  - intros intprt Hall. split.
    + by apply computeGoalFunction_returns.
    + by apply computeGoalFunction_disjunction.
  - intros intprt. apply computeGoalFunction_true.
  - intros intprt. apply computeGoalFunction_throws.
Qed.

(** A goal with a clause that returns true returns true or throws, and it
    returns true when the clauses before that one return false. *)
Lemma computeGoalFunction_monotone (intprt : list (list Literal)) (s : State)
    (c : list Literal) :
  c ∈ intprt -> testConjunctiveClause s c = Return true ->
  computeGoalFunction intprt s = Return true \/
  exists e, computeGoalFunction intprt s = Throw e.
Proof.
  intros Hin Hc. induction intprt as [|c0 intprt IH]; [by apply elem_of_nil in Hin|].
  simpl. destruct (testConjunctiveClause s c0) as [[|]|e] eqn:Hc0; simpl; eauto.
  apply elem_of_cons in Hin as [-> | Hin]; [congruence | auto].
Qed.

(** The height difference is antisymmetric within a column. *)
Lemma heightDifference_antisymmetric (s : State) (x y : jsval) (d : Z) :
  let a := Heuristics_computeObjectPosition s x in
  let b := Heuristics_computeObjectPosition s y in
  isHeld a = false -> isHeld b = false ->
  isFloor a = false -> isFloor b = false ->
  stackNo a = stackNo b ->
  heightDifference s x y = Return d -> heightDifference s y x = Return (- d).
Proof.
  intros a b Ha Hb Hfa Hfb Hst. unfold heightDifference. fold a b.
  rewrite Ha, Hb, Hfa, Hfb, Hst, Z.eqb_refl. simpl.
  intros [= <-]. f_equal. lia.
Qed.

End GoalPredicate.

(** ** The planner on the world of the specification's scenario *)

Section Scenario.
#[local] Existing Instance Standin.collaborators.

Example scenario_neighbours :
  neighbours Standin.objects Standin.start =
  Return
    [mkNeighb (mkState 1 JNull [[JStr "a"; JStr "b"]; []]) "r";
     mkNeighb (mkState 0 (JStr "b") [[JStr "a"]; []]) "p"].
Proof. reflexivity. Qed.

(** With [b] in the hand over the first column both moves and the put-down
    on [a] are emitted, in that order. *)
Example scenario_neighbours_holding :
  neighbours Standin.objects (mkState 0 (JStr "b") [[JStr "a"]; []]) =
  Return
    [mkNeighb (mkState 1 (JStr "b") [[JStr "a"]; []]) "r";
     mkNeighb (mkState 0 JNull [[JStr "a"; JStr "b"]; []]) "d"].
Proof. vm_compute. reflexivity. Qed.

Example scenario_heightDifference :
  heightDifference Standin.start (JStr "b") (JStr "a") = Return 1 /\
  heightDifference Standin.start (JStr "a") (JStr "b") = Return (-1) /\
  heightDifference Standin.start (JStr "b") (JStr "floor") = Return 2 /\
  heightDifference Standin.start (JStr "floor") (JStr "a") =
    Throw (PlannerError
      "heightDiff: Floor cannot be above anything... Should never happen.").
Proof. vm_compute. by split_and!. Qed.

(** The scenario: [b] is to be on the floor; the plan picks it up, moves
    right and puts it down. *)
Example scenario_plan :
  fst (plan [1%positive] Standin.world Standin.store0) = Return [1%positive] /\
  records (snd (plan [1%positive] Standin.world Standin.store0)) !! 1%positive =
    Some (mkResultObject Standin.b_on_floor (Some ["p"; "r"; "d"])) /\
  planToString (mkResultObject Standin.b_on_floor (Some ["p"; "r"; "d"])) =
    Return "p, r, d".
Proof. vm_compute. by split_and!. Qed.

(** A goal that holds of the start state has the empty plan. *)
Example scenario_goal_already_true :
  rmap shift
    (searchOutcome Standin.world [[mkLiteral true "ontop" ["b"; "a"]]]) =
  Return [].
Proof. vm_compute. reflexivity. Qed.

(** A goal with a relation the planner does not implement makes the search
    fail with [testAtom]'s error. *)
Example scenario_unimplemented_relation :
  searchOutcome Standin.world [[mkLiteral true "beside" ["a"; "b"]]] =
  Throw (PlannerError "!!! Unimplemented relation in testAtom: beside").
Proof. vm_compute. reflexivity. Qed.

Example scenario_Error_toString :
  Error_toString "Found no plans" = "Planner.Error: Found no plans".
Proof. reflexivity. Qed.

End Scenario.

(** ** The theorems at the scenario's world, and where the specification
    and the code part *)

Section Instances.
#[local] Existing Instance Standin.collaborators.

Lemma scenario_reachable :
  reachable Standin.objects Standin.start Standin.finish.
Proof.
  apply rtc_l with (mkState 0 (JStr "b") [[JStr "a"]; []]).
  { eexists _, "p". split; [reflexivity|]. repeat constructor. }
  apply rtc_l with (mkState 1 (JStr "b") [[JStr "a"]; []]).
  { eexists _, "r". split; [vm_compute; reflexivity|]. repeat constructor. }
  apply rtc_once.
  eexists _, "d". split; [vm_compute; reflexivity|]. repeat constructor.
Qed.

Lemma scenario_placed : placed ["a"; "b"] Standin.start.
Proof.
  apply placed_occurrences. intros x Hx.
  repeat (apply elem_of_cons in Hx as [-> | Hx]); [reflexivity..|].
  by apply elem_of_nil in Hx.
Qed.

Lemma neighbours_legal_actions_witness :
  armInRange Standin.start /\
  neighbours Standin.objects Standin.start =
  Return (map (fun a => mkNeighb (Spec.successor a Standin.start) (Spec.label a))
              (List.filter (fun a => Spec.legal Standin.objects a Standin.start)
                           Spec.actions)).
Proof.
  assert (Hs : armInRange Standin.start) by (unfold armInRange; simpl; lia).
  split; [exact Hs|].
  exact (proj1 (neighbours_legal_actions Standin.objects Standin.start Hs)).
Defined.

Lemma testAtom_unimplemented_witness :
  testAtom Standin.start (mkLiteral true "beside" ["a"; "b"]) =
  Throw (PlannerError "!!! Unimplemented relation in testAtom: beside").
Proof.
  apply (testAtom_unimplemented Standin.start (mkLiteral true "beside" ["a"; "b"])).
  simpl. intros Hin.
  repeat (apply elem_of_cons in Hin as [Hin | Hin]; [discriminate|]).
  by apply elem_of_nil in Hin.
Defined.

Lemma pickup_putdown_restores_witness :
  exists s1,
    performAction "p" Standin.start = Return (mkNeighb s1 "p") /\
    holding s1 = JStr "b" /\
    performAction "d" s1 = Return (mkNeighb Standin.start "d").
Proof.
  apply (pickup_putdown_restores Standin.start [JStr "a"] (JStr "b")).
  - reflexivity.
  - reflexivity.
Defined.

Lemma placement_invariant_reachable_witness : placed ["a"; "b"] Standin.finish.
Proof.
  apply (placement_invariant_reachable Standin.objects ["a"; "b"]
           Standin.start Standin.finish).
  - exact scenario_placed.
  - exact scenario_reachable.
Defined.

Lemma performAction_h_copy_on_write_witness :
  exists newState h' st',
    performAction_h "p" 1%positive Standin.heap = (Return (newState, "p"), h') /\
    Standin.heap ⊆ h' /\
    absState h' 1%positive = Some Standin.start /\
    performAction "p" Standin.start = Return (mkNeighb st' "p") /\
    absState h' newState = Some st' /\
    Forall (fun l => Standin.heap !! l = None) (footprint h' newState).
Proof.
  apply (performAction_h_copy_on_write "p" 1%positive Standin.heap Standin.start).
  - reflexivity.
  - unfold armInRange. simpl. lia.
  - repeat constructor.
Defined.

(** The pick-up of the witness, run: the new state is object 8 over the new
    arrays 5, 6 and 7, and objects 1 to 4 are as before. *)
Example scenario_performAction_h :
  fst (performAction_h "p" 1%positive Standin.heap) = Return (8%positive, "p") /\
  footprint (snd (performAction_h "p" 1%positive Standin.heap)) 8%positive =
    [8; 5; 6; 7]%positive /\
  absState (snd (performAction_h "p" 1%positive Standin.heap)) 8%positive =
    Some (mkState 0 (JStr "b") [[JStr "a"]; []]) /\
  absState (snd (performAction_h "p" 1%positive Standin.heap)) 1%positive =
    Some Standin.start.
Proof. vm_compute. by split_and!. Qed.


(** A goal none of whose literals throws: in a state that holds [b], its
    first clause (holding [a]) returns false, its second (holding [b])
    returns true, and so does the goal. *)
Example goal_second_clause_instance :
  testConjunctiveClause (mkState 0 (JStr "b") [[JStr "a"]; []])
    [mkLiteral true "holding" ["a"]] = Return false /\
  testConjunctiveClause (mkState 0 (JStr "b") [[JStr "a"]; []])
    [mkLiteral true "holding" ["b"]] = Return true /\
  computeGoalFunction
    [[mkLiteral true "holding" ["a"]]; [mkLiteral true "holding" ["b"]]]
    (mkState 0 (JStr "b") [[JStr "a"]; []]) = Return true.
Proof. by split_and!. Qed.

(** A goal that is not well formed: in a state that holds [b], the second
    clause of the goal (holding [b]) returns true, but its first clause has a
    relation that is not implemented, and the goal throws. *)
Example goal_unimplemented_clause_instance :
  [mkLiteral true "holding" ["b"]] ∈ Standin.beside_then_holding_b /\
  testConjunctiveClause (mkState 0 (JStr "b") [[JStr "a"]; []])
    [mkLiteral true "holding" ["b"]] = Return true /\
  computeGoalFunction Standin.beside_then_holding_b
    (mkState 0 (JStr "b") [[JStr "a"]; []]) =
    Throw (PlannerError "!!! Unimplemented relation in testAtom: beside").
Proof.
  split_and!.
  - unfold Standin.beside_then_holding_b. repeat constructor.
  - reflexivity.
  - reflexivity.
Qed.

(** C10, counterexample. A list of one interpretation, whose search throws:
    the list is not empty, yet [plan] returns no array, so the interpretation
    contributes no record to one; [plan] throws the exception of the search.
    The same with an interpretation before it whose search returns. *)
Lemma plan_nonempty_without_array_counterexample :
  length [2%positive] = 1%nat /\
  searchFor Standin.world Standin.store0 2%positive =
    Throw (ForeignError "Astar: no path") /\
  fst (plan [2%positive] Standin.world Standin.store0) =
    Throw (ForeignError "Astar: no path") /\
  searchFor Standin.world Standin.store0 1%positive =
    Return ["start"; "p"; "r"; "d"] /\
  fst (plan [1%positive; 2%positive] Standin.world Standin.store0) =
    Throw (ForeignError "Astar: no path").
Proof. vm_compute. by split_and!. Qed.

(** C6, counterexample. After [plan] the record of the interpretation it was
    given has a [plan] field it did not have, and [worldDictionary] is no
    longer [null]. *)
Lemma plan_writes_its_argument_counterexample :
  records Standin.store0 !! 1%positive =
    Some (mkResultObject Standin.b_on_floor None) /\
  records (snd (plan [1%positive] Standin.world Standin.store0)) !! 1%positive =
    Some (mkResultObject Standin.b_on_floor (Some ["p"; "r"; "d"])) /\
  worldDictionary Standin.store0 = None /\
  worldDictionary (snd (plan [1%positive] Standin.world Standin.store0)) =
    Some Standin.objects.
Proof. vm_compute. by split_and!. Qed.


(** A goal whose first clause has the floor as the upper operand of an
    implemented relation: that clause, and the goal, throw, although the
    second clause returns true. *)
Example goal_floor_above_instance :
  testConjunctiveClause (mkState 0 (JStr "b") [[JStr "a"]; []])
    [mkLiteral true "holding" ["b"]] = Return true /\
  computeGoalFunction Standin.floor_then_holding_b
    (mkState 0 (JStr "b") [[JStr "a"]; []]) =
    Throw (PlannerError
      "heightDiff: Floor cannot be above anything... Should never happen.").
Proof. vm_compute. by split_and!. Qed.

End Instances.

(** * Further properties of the code *)

(** ** Transitions *)

Section MoreTransitions.
Context `{Collaborators}.
Variable dictionary : gmap string ObjectDefinition.


(** X2. [performAction] throws its own error, "ERROR: unknown action" and
    the label, exactly for the labels other than l, r, p and d. *)
Theorem performAction_unknown_action (a : string) (s : State) :
  performAction a s = Throw (PlannerError ("ERROR: unknown action " +:+ a)) <->
  a ∉ actionLabels.
Proof.
  split; [|apply performAction_unknown].
  intros Hthrow Ha. unfold actionLabels in Ha.
  repeat (apply elem_of_cons in Ha as [-> | Ha]).
  - by rewrite performAction_l in Hthrow.
  - by rewrite performAction_r in Hthrow.
  - rewrite performAction_p in Hthrow. by destruct (index _ _).
  - rewrite performAction_d in Hthrow. by destruct (index _ _).
  - by apply elem_of_nil in Ha.
Qed.

(** X3. [performAction] does not check what [neighbours] checks: over an
    empty column "p" returns a state that holds [undefined], with every
    stack as before; and "d" pushes whatever [holding] is, [null] too, onto
    the column and leaves [null] in the hand. *)
Theorem performAction_unchecked (s : State) (st : list jsval) :
  index (stacks s) (arm s) = Some st ->
  (st = [] ->
   exists s', performAction "p" s = Return (mkNeighb s' "p") /\
              isUndefined (holding s') = true /\
              stacks s' = stacks s /\ arm s' = arm s) /\
  (exists s', performAction "d" s = Return (mkNeighb s' "d") /\
              index (stacks s') (arm s') = Some (st ++ [holding s]) /\
              holding s' = JNull /\ arm s' = arm s).
Proof.
  intros Hst.
  assert (Hs : 0 <= arm s < Z.of_nat (length (stacks s))).
  { apply index_is_Some. eauto. }
  split.
  - intros ->. rewrite performAction_p, Hst. eexists. split; [reflexivity|].
    simpl. split_and!; try done. by apply setIndex_same.
  - rewrite performAction_d, Hst. eexists. split; [reflexivity|]. simpl.
    split_and!; try done. by apply index_setIndex.
Qed.

(** X4. [neighbours] returns exactly for the states whose arm is over one of
    the columns; for every other state it throws a TypeError. *)
Theorem neighbours_returns_iff (s : State) :
  (armInRange s <-> exists ns, neighbours dictionary s = Return ns) /\
  (~ armInRange s <-> neighbours dictionary s = Throw TypeError).
Proof.
  destruct (decide (armInRange s)) as [Hs|Hs].
  - rewrite (neighbours_emits dictionary s Hs). split; split; eauto; done.
  - assert (Hthrow : neighbours dictionary s = Throw TypeError).
    { pose proof Hs as Hidx. apply index_None in Hidx.
      unfold neighbours, pushAction. rewrite Hidx.
      rewrite performAction_l, performAction_r.
      by destruct (0 <? arm s), (arm s <? _), (isNullish (holding s)). }
    rewrite Hthrow. split; split; try done. by intros [? ?].
Qed.

Lemma neighbours_Return_inv (s : State) (ns : list Neighb) :
  neighbours dictionary s = Return ns ->
  armInRange s /\
  ns = map (fun a => mkNeighb (Spec.successor a s) (Spec.label a))
           (List.filter (fun a => Spec.legal dictionary a s) Spec.actions).
Proof.
  intros Hns. destruct (decide (armInRange s)) as [Hs|Hs].
  - split; [done|]. rewrite (neighbours_emits dictionary s Hs) in Hns. congruence.
  - destruct (neighbours_out_of_range dictionary s Hs) as [e He]. congruence.
Qed.

Lemma legal_PickUp_PutDown (s : State) :
  Spec.legal dictionary Spec.PickUp s && Spec.legal dictionary Spec.PutDown s
  = false.
Proof.
  simpl. destruct (isNullish (holding s)); simpl; [|done].
  apply andb_false_r.
Qed.

(** X5. [neighbours] never returns more than three successors, never two
    with the same label, only the labels l, r, p and d, and never both a
    pick-up and a put-down. *)
Theorem neighbours_at_most_three (s : State) (ns : list Neighb) :
  neighbours dictionary s = Return ns ->
  (length ns <= 3)%nat /\
  NoDup (map action ns) /\
  (forall n, n ∈ ns -> action n ∈ actionLabels) /\
  ~ ("p" ∈ map action ns /\ "d" ∈ map action ns).
Proof.
  intros [Hs ->]%neighbours_Return_inv.
  pose proof (legal_PickUp_PutDown s) as HPD.
  assert (Hlabels :
    map action
      (map (fun a => mkNeighb (Spec.successor a s) (Spec.label a))
         (List.filter (fun a => Spec.legal dictionary a s) Spec.actions)) =
    map Spec.label
      (List.filter (fun a => Spec.legal dictionary a s) Spec.actions)).
  { rewrite map_map. done. }
  split_and!.
  - rewrite length_map. unfold Spec.actions. cbn [List.filter].
    destruct (Spec.legal dictionary Spec.MoveLeft s),
      (Spec.legal dictionary Spec.MoveRight s),
      (Spec.legal dictionary Spec.PickUp s),
      (Spec.legal dictionary Spec.PutDown s); simpl in *; try lia; done.
  - rewrite Hlabels. unfold Spec.actions. cbn [List.filter].
    destruct (Spec.legal dictionary Spec.MoveLeft s),
      (Spec.legal dictionary Spec.MoveRight s),
      (Spec.legal dictionary Spec.PickUp s),
      (Spec.legal dictionary Spec.PutDown s); simpl in *; try done;
      by apply (bool_decide_unpack _).
  - intros n (a & <- & _)%list_elem_of_In%in_map_iff. simpl.
    destruct a; unfold actionLabels; simpl; repeat constructor.
  - rewrite Hlabels. unfold Spec.actions. cbn [List.filter].
    destruct (Spec.legal dictionary Spec.MoveLeft s),
      (Spec.legal dictionary Spec.MoveRight s),
      (Spec.legal dictionary Spec.PickUp s),
      (Spec.legal dictionary Spec.PutDown s); simpl in *; try done;
      intros [Hp Hd];
      repeat (apply elem_of_cons in Hp as [Hp | Hp]; try discriminate);
      repeat (apply elem_of_cons in Hd as [Hd | Hd]; try discriminate);
      try (by apply elem_of_nil in Hp); try (by apply elem_of_nil in Hd).
Qed.

(** The column under the arm of a state split around it. *)
Lemma column_split (before after : list (list jsval)) (st : list jsval)
    (ho : jsval) :
  Spec.column (mkState (Z.of_nat (length before)) ho (before ++ st :: after))
  = st.
Proof.
  apply column_index. simpl. apply index_Some. split; [lia|].
  rewrite Nat2Z.id. by apply list_lookup_middle.
Qed.

Lemma snoc_neq {A} (l : list A) (x : A) : l ++ [x] <> l.
Proof.
  intros Heq. apply (f_equal length) in Heq. rewrite length_app in Heq.
  simpl in Heq. lia.
Qed.

(** X6. No transition that [neighbours] emits leads back to the state it
    leaves: the search graph has no loop of length one. *)
Theorem neighbours_no_self_loop (s s' : State) :
  step dictionary s s' -> s' <> s.
Proof.
  intros (Hs & a & Hlegal & ->)%step_successor.
  destruct (armInRange_split s Hs) as (before & st & after & Hsplit).
  destruct a.
  - intros Heq. apply (f_equal arm) in Heq. simpl in Heq. lia.
  - intros Heq. apply (f_equal arm) in Heq. simpl in Heq. lia.
  - simpl in Hlegal. apply andb_prop in Hlegal as [_ Hne].
    apply bool_decide_eq_true in Hne. rewrite Hsplit in Hne |- *.
    rewrite column_split in Hne.
    destruct st as [|top rest _] using rev_ind; [done|].
    rewrite successor_PickUp_split. intros [= _ Heq].
    apply app_inv_head in Heq. injection Heq as Heq.
    by apply (snoc_neq rest top).
  - rewrite Hsplit, successor_PutDown_split. intros [= _ Heq].
    apply app_inv_head in Heq. injection Heq as Heq.
    by apply (snoc_neq st (holding s)).
Qed.

Lemma step_intro (s : State) (a : Spec.Action) :
  armInRange s -> Spec.legal dictionary a s = true ->
  step dictionary s (Spec.successor a s).
Proof.
  intros Hs Hlegal. exists
    (map (fun a => mkNeighb (Spec.successor a s) (Spec.label a))
         (List.filter (fun a => Spec.legal dictionary a s) Spec.actions)),
    (Spec.label a).
  split; [by apply neighbours_emits|].
  apply list_elem_of_In, in_map_iff. exists a. split; [done|].
  apply filter_In. split; [|done]. destruct a; simpl; tauto.
Qed.

(** X7. A move and a put-down can be undone in one step: when [neighbours]
    emits a successor under a label other than "p", it emits the state
    itself among the neighbours of that successor. *)
Theorem neighbours_step_back (s s' : State) (a : string) (ns : list Neighb) :
  neighbours dictionary s = Return ns ->
  mkNeighb s' a ∈ ns ->
  a <> "p" ->
  step dictionary s' s.
Proof.
  intros [Hs ->]%neighbours_Return_inv Hin Ha.
  apply list_elem_of_In, in_map_iff in Hin as (act & [= <- <-] & Hact).
  apply filter_In in Hact as [_ Hlegal].
  destruct (armInRange_split s Hs) as (before & st & after & Hsplit).
  unfold armInRange in Hs.
  destruct act; [| |done|].
  - (* left, undone by right *)
    simpl in Hlegal. apply bool_decide_eq_true in Hlegal.
    replace s with (Spec.successor Spec.MoveRight
                      (Spec.successor Spec.MoveLeft s)) at 2
      by (destruct s; simpl; f_equal; lia).
    apply step_intro.
    + unfold armInRange. simpl. lia.
    + simpl. apply bool_decide_eq_true. lia.
  - (* right, undone by left *)
    simpl in Hlegal. apply bool_decide_eq_true in Hlegal.
    replace s with (Spec.successor Spec.MoveLeft
                      (Spec.successor Spec.MoveRight s)) at 2
      by (destruct s; simpl; f_equal; lia).
    apply step_intro.
    + unfold armInRange. simpl. lia.
    + simpl. apply bool_decide_eq_true. lia.
  - (* put-down, undone by pick-up *)
    assert (Hback : Spec.successor Spec.PickUp (Spec.successor Spec.PutDown s) = s).
    { rewrite Hsplit, successor_PutDown_split, successor_PickUp_split. done. }
    rewrite <- Hback at 2. apply step_intro.
    + rewrite Hsplit, successor_PutDown_split. unfold armInRange. simpl.
      rewrite length_app. simpl. lia.
    + rewrite Hsplit, successor_PutDown_split.
      cbn [Spec.legal holding isNullish]. rewrite column_split.
      rewrite bool_decide_true; [done|]. by destruct st.
Qed.

(** X8. From a state whose arm is over one of its columns, every state
    reached through [neighbours] has as many columns, has its arm over one of
    them, and [neighbours] returns on it: the search never meets the
    TypeError of [neighbours]. *)
Theorem reachable_armInRange (s0 s : State) :
  armInRange s0 ->
  reachable dictionary s0 s ->
  armInRange s /\
  length (stacks s) = length (stacks s0) /\
  exists ns, neighbours dictionary s = Return ns.
Proof.
  intros Hs0 Hreach.
  assert (Hinv : armInRange s /\ length (stacks s) = length (stacks s0)).
  { induction Hreach as [s|s s1 s' Hstep _ IH]; [done|].
    apply armInRange_step in Hstep as [Hs1 Hlen].
    destruct (IH Hs1) as [? ?]. split; [done | congruence]. }
  destruct Hinv as [Hs Hlen]. split_and!; [done..|].
  eexists. by apply neighbours_emits.
Qed.

(** X9. [neighbours] consults [worldDictionary] only for the held object and
    the top of the column under the arm: it does not depend on the
    dictionary when the hand is empty or the column is empty, and two
    dictionaries that agree on those two names give the same neighbours. *)
Theorem neighbours_dictionary (d1 d2 : gmap string ObjectDefinition) (s : State) :
  (isNullish (holding s) = true -> neighbours d1 s = neighbours d2 s) /\
  (Spec.column s = [] -> neighbours d1 s = neighbours d2 s) /\
  (forall top,
     last (Spec.column s) = Some top ->
     d1 !! toKey (holding s) = d2 !! toKey (holding s) ->
     d1 !! toKey top = d2 !! toKey top ->
     neighbours d1 s = neighbours d2 s).
Proof.
  unfold neighbours, Spec.column.
  destruct (index (stacks s) (arm s)) as [st|] eqn:Hst; simpl.
  - split_and!.
    + by intros ->.
    + intros ->. simpl. done.
    + intros top Htop Hho Hkey. rewrite index_last, Htop. simpl.
      unfold canSupport. by rewrite Hho, Hkey.
  - split_and!; [done..|]. by intros top [=].
Qed.

End MoreTransitions.

(** ** Relations and goals *)

Section MoreRelations.
Context `{Collaborators}.

(** X10. A clause is tested literal by literal and stops at the first
    literal that does not return true: it returns false iff some literal
    returns false after literals that all return true, and it throws iff some
    literal throws after literals that all return true. Literals after that
    one are not evaluated, so their errors do not show. *)
Theorem testConjunctiveClause_outcomes (s : State) (c : list Literal) :
  (testConjunctiveClause s c = Return false <->
   exists before atom after,
     c = before ++ atom :: after /\
     Forall (fun a => testAtom s a = Return true) before /\
     testAtom s atom = Return false) /\
  (forall e,
     testConjunctiveClause s c = Throw e <->
     exists before atom after,
       c = before ++ atom :: after /\
       Forall (fun a => testAtom s a = Return true) before /\
       testAtom s atom = Throw e).
Proof.
  induction c as [|a0 c [IHf IHt]]; simpl.
  - split; [|intros e]; (split; [done|]);
      intros (before & atom & after & Heq & _); by destruct before.
  - destruct (testAtom s a0) as [[|]|e0] eqn:Ha0; simpl.
    + split; [rewrite IHf | intros e; rewrite IHt]; split.
      * intros (before & atom & after & -> & Hb & Ha).
        exists (a0 :: before), atom, after. split_and!; [done| |done].
        by constructor.
      * intros (before & atom & after & Heq & Hb & Ha).
        destruct before as [|a1 before]; simpl in Heq; simplify_eq;
          [congruence|].
        apply Forall_cons in Hb as [_ Hb]. by exists before, atom, after.
      * intros (before & atom & after & -> & Hb & Ha).
        exists (a0 :: before), atom, after. split_and!; [done| |done].
        by constructor.
      * intros (before & atom & after & Heq & Hb & Ha).
        destruct before as [|a1 before]; simpl in Heq; simplify_eq;
          [congruence|].
        apply Forall_cons in Hb as [_ Hb]. by exists before, atom, after.
    + split; [|intros e]; split; try done.
      * intros _. exists [], a0, c. by split_and!.
      * intros (before & atom & after & Heq & Hb & Ha).
        destruct before as [|a1 before]; simpl in Heq; simplify_eq;
          [congruence|].
        apply Forall_cons in Hb as [Hb _]. congruence.
    + split; [|intros e]; split; try done.
      * intros (before & atom & after & Heq & Hb & Ha).
        destruct before as [|a1 before]; simpl in Heq; simplify_eq;
          [congruence|].
        apply Forall_cons in Hb as [Hb _]. congruence.
      * intros [= <-]. exists [], a0, c. by split_and!.
      * intros (before & atom & after & Heq & Hb & Ha).
        destruct before as [|a1 before]; simpl in Heq; simplify_eq;
          [congruence|].
        apply Forall_cons in Hb as [Hb _]. congruence.
Qed.

(** X11. The compiled goal returns false iff every clause returns false (so
    a goal with no clause is false of every state), and it throws iff some
    clause throws after clauses that all return false. *)
Theorem computeGoalFunction_outcomes (intprt : list (list Literal)) (s : State) :
  (computeGoalFunction intprt s = Return false <->
   Forall (fun c => testConjunctiveClause s c = Return false) intprt) /\
  (forall e,
     computeGoalFunction intprt s = Throw e <->
     exists before c after,
       intprt = before ++ c :: after /\
       Forall (fun c' => testConjunctiveClause s c' = Return false) before /\
       testConjunctiveClause s c = Throw e).
Proof.
  induction intprt as [|c0 intprt [IHf IHt]]; simpl.
  - split; [by split|]. intros e. split; [done|].
    intros (before & c & after & Heq & _). by destruct before.
  - destruct (testConjunctiveClause s c0) as [[|]|e0] eqn:Hc0; simpl.
    + split; [|intros e]; split; try done.
      * intros [Hc _]%Forall_cons. congruence.
      * intros (before & c & after & Heq & Hb & Hc).
        destruct before as [|c1 before]; simpl in Heq; simplify_eq;
          [congruence|].
        apply Forall_cons in Hb as [Hb _]. congruence.
    + split; [rewrite IHf | intros e; rewrite IHt]; split.
      * intros Hall. by constructor.
      * by intros [_ Hall]%Forall_cons.
      * intros (before & c & after & -> & Hb & Hc).
        exists (c0 :: before), c, after. split_and!; [done| |done].
        by constructor.
      * intros (before & c & after & Heq & Hb & Hc).
        destruct before as [|c1 before]; simpl in Heq; simplify_eq;
          [congruence|].
        apply Forall_cons in Hb as [_ Hb]. by exists before, c, after.
    + split; [|intros e]; split; try done.
      * intros [Hc _]%Forall_cons. congruence.
      * intros [= <-]. exists [], c0, intprt. by split_and!.
      * intros (before & c & after & Heq & Hb & Hc).
        destruct before as [|c1 before]; simpl in Heq; simplify_eq;
          [congruence|].
        apply Forall_cons in Hb as [Hb _]. congruence.
Qed.

(** X12. Within a column the height difference is antisymmetric: for two
    operands that are neither held nor the floor and are in the same column,
    the difference from x to y is the height of x less the height of y, and
    the difference from y to x is the opposite number. *)
Theorem heightDifference_column_symmetry (s : State) (x y : jsval) :
  let a := Heuristics_computeObjectPosition s x in
  let b := Heuristics_computeObjectPosition s y in
  isHeld a = false -> isHeld b = false ->
  isFloor a = false -> isFloor b = false ->
  stackNo a = stackNo b ->
  heightDifference s x y = Return (heightNo a - heightNo b) /\
  heightDifference s y x = Return (- (heightNo a - heightNo b)).
Proof.
  intros a b Ha Hb Hfa Hfb Hst. unfold heightDifference. fold a b.
  rewrite Ha, Hb, Hfa, Hfb, Hst, Z.eqb_refl. simpl.
  split; f_equal. lia.
Qed.

(** A positive height difference one way leaves only a negative one, or an
    error, the other way. *)
Lemma heightDifference_positive (s : State) (x y : jsval) (d d' : Z) :
  heightDifference s x y = Return d -> d > 0 ->
  heightDifference s y x = Return d' -> d' < 0.
Proof.
  unfold heightDifference.
  destruct (isHeld (Heuristics_computeObjectPosition s x)),
    (isHeld (Heuristics_computeObjectPosition s y)); simpl;
    try (intros [= <-]; lia).
  destruct (isFloor (Heuristics_computeObjectPosition s x)),
    (isFloor (Heuristics_computeObjectPosition s y)); simpl; try done.
  rewrite (Z.eqb_sym (stackNo (Heuristics_computeObjectPosition s y))).
  destruct (stackNo _ =? stackNo _); intros [= <-] Hd [= <-]; lia.
Qed.

(** X13. "Above" is asymmetric: when the literal above(x, y) returns true,
    the literal above(y, x) does not return true (it returns false, or
    throws when y is the floor). *)
Theorem above_asymmetric (s : State) (x y : string) :
  testAtom s (mkLiteral true "above" [x; y]) = Return true ->
  testAtom s (mkLiteral true "above" [y; x]) <> Return true.
Proof.
  rewrite !testAtom_above by done. unfold rmap, arg. simpl.
  destruct (heightDifference s (JStr x) (JStr y)) as [d|e] eqn:Hxy; [|done].
  destruct (heightDifference s (JStr y) (JStr x)) as [d'|e'] eqn:Hyx; [|done].
  simpl. intros [= Hd%bool_decide_eq_true] [= Hd'%bool_decide_eq_true].
  pose proof (heightDifference_positive s _ _ _ _ Hxy Hd Hyx). lia.
Qed.

(** X14. Whatever is on top of or inside something is above it: when an
    ontop or inside literal returns true, the above literal with the same
    operands returns true; and when a negated above literal returns true, so
    do the negated ontop and inside literals. *)
Theorem ontop_implies_above (s : State) (r : string) (xs : list string) :
  r = "ontop" \/ r = "inside" ->
  (testAtom s (mkLiteral true r xs) = Return true ->
   testAtom s (mkLiteral true "above" xs) = Return true) /\
  (testAtom s (mkLiteral false "above" xs) = Return true ->
   testAtom s (mkLiteral false r xs) = Return true).
Proof.
  intros Hr.
  rewrite !(testAtom_ontop s (mkLiteral _ r xs)) by done.
  rewrite !testAtom_above by done. unfold rmap. simpl.
  destruct (heightDifference s _ _) as [d|e]; simpl; [|done].
  split.
  - intros [= Hd%bool_decide_eq_true]. f_equal. apply bool_decide_eq_true. lia.
  - intros [= Hd%negb_true_iff%bool_decide_eq_false]. f_equal.
    apply negb_true_iff, bool_decide_eq_false. lia.
Qed.

(** X15. An object in the hand is on, in and above nothing, and nothing is
    on, in or above it: with an operand that the position lookup reports as
    held, an ontop, inside or above literal returns false when its polarity
    is true and true when it is false, and never throws. *)
Theorem held_operand_relation (s : State) (p : bool) (r : string)
    (xs : list string) :
  r ∈ ["ontop"; "inside"; "above"] ->
  isHeld (Heuristics_computeObjectPosition s (arg (mkLiteral p r xs) 0)) = true \/
  isHeld (Heuristics_computeObjectPosition s (arg (mkLiteral p r xs) 1)) = true ->
  testAtom s (mkLiteral p r xs) = Return (negb p).
Proof.
  intros Hr Hheld.
  assert (Hd : heightDifference s (arg (mkLiteral p r xs) 0)
                 (arg (mkLiteral p r xs) 1) = Return (-1)).
  { unfold heightDifference.
    destruct Hheld as [-> | ->]; [by rewrite orb_true_r | done]. }
  repeat (apply elem_of_cons in Hr as [-> | Hr]).
  - rewrite testAtom_ontop, Hd by auto. by destruct p.
  - rewrite testAtom_ontop, Hd by auto. by destruct p.
  - rewrite testAtom_above, Hd by auto. by destruct p.
  - by apply elem_of_nil in Hr.
Qed.

End MoreRelations.

(** ** The driver and the text of a plan *)

Section MoreDriver.
Context `{Collaborators}.
Variable ws : WorldState.

(** X16. [plan] does not roll back: when the search of an interpretation
    throws after the searches before it returned, [plan] throws that
    exception, yet the records before it keep the plans that were written to
    them; every other record is as it was, and [worldDictionary] stays set
    to the objects of the world. *)
Theorem plan_failure_keeps_writes (before after : list loc) (l : loc)
    (e : exn) (σ : Store) :
  Forall (searchReturns ws σ) before ->
  searchFor ws σ l = Throw e ->
  fst (plan (before ++ l :: after) ws σ) = Throw e /\
  (forall l', l' ∈ before ->
     exists r p,
       records σ !! l' = Some r /\ searchOutcome ws (intp r) = Return p /\
       records (snd (plan (before ++ l :: after) ws σ)) !! l' =
       Some (mkResultObject (intp r) (Some (shift p)))) /\
  (forall l', l' ∉ before ->
     records (snd (plan (before ++ l :: after) ws σ)) !! l' = records σ !! l') /\
  (is_Some (records σ !! l) ->
   worldDictionary (snd (plan (before ++ l :: after) ws σ)) =
   Some (ws_objects ws)).
Proof.
  intros Hbefore Hl.
  rewrite plan_nonempty by by destruct before.
  rewrite planEach_app.
  destruct (planEach_returns ws before [] σ Hbefore) as [σ1 Hrun1].
  rewrite (mbind_run _ _ _ _ _ Hrun1).
  destruct (planEach_store ws before [] σ) as (Hsame & Hother & _).
  rewrite Hrun1 in Hsame, Hother. simpl in Hsame, Hother.
  rewrite planEach_cons. unfold mbind. rewrite planOne_run.
  assert (Hl1 : searchFor ws σ1 l = Throw e)
    by by rewrite (searchFor_sameGoals ws σ σ1).
  unfold searchFor in Hl1.
  assert (Hrec : records σ1 !! l = None -> records σ !! l = None).
  { pose proof (Hsame l) as Hs.
    destruct (records σ1 !! l), (records σ !! l); simpl in Hs; done. }
  destruct (records σ1 !! l) as [r1|] eqn:Hr1.
  - rewrite Hl1. simpl. split_and!; try done.
    intros l' Hl'. by eapply planEach_plans.
  - injection Hl1 as <-. simpl. split_and!; try done.
    + intros l' Hl'. by eapply planEach_plans.
    + intros [r Hr]. rewrite Hrec in Hr; done.
Qed.

(** X17. Every record [plan] returns can be rendered: [planToString]
    returns on it, with the labels of the path its search returned, less the
    first, joined by ", ". *)
Theorem plan_then_planToString (interps plans : list loc) (σ : Store) :
  fst (plan interps ws σ) = Return plans ->
  forall l, l ∈ plans ->
    exists r p,
      records (snd (plan interps ws σ)) !! l = Some r /\
      searchFor ws σ l = Return p /\
      planToString r = Return (String.concat ", " (shift p)).
Proof.
  intros Hret l Hl. rewrite plan_run in Hret |- *.
  pose proof (planEach_outcome ws interps [] σ) as Hout.
  destruct (planEach interps ws [] σ) as [[plans'|e] σ'] eqn:Hrun; [|done].
  simpl in Hout. destruct Hout as [-> _].
  destruct (0 <? Z.of_nat (length interps)); [|done].
  simpl in Hret. injection Hret as <-. simpl.
  destruct (planEach_plans ws interps [] _ σ σ' Hrun l Hl)
    as (r & p & Hr & Hp & Hr').
  eexists _, p. split_and!; [exact Hr'| |done].
  unfold searchFor. by rewrite Hr.
Qed.

End MoreDriver.

Lemma readLabels_concat (p : list string) :
  Forall (fun a => a ∈ actionLabels) p ->
  readLabels (String.concat ", " p) = p.
Proof.
  induction 1 as [|a p Ha _ IH]; [done|].
  assert (Hc : exists c, a = String c EmptyString).
  { unfold actionLabels in Ha.
    repeat (apply elem_of_cons in Ha as [-> | Ha]); eauto.
    by apply elem_of_nil in Ha. }
  destruct Hc as [c ->]. destruct p as [|b p]; [done|].
  change (String.concat ", " (String c EmptyString :: b :: p))
    with (String c (String ","%char
                     (String " "%char (String.concat ", " (b :: p))))).
  cbn [readLabels]. by rewrite IH.
Qed.

(** X18. The text of a plan can be read back: for a record whose plan
    consists of the labels l, r, p and d, [planToString] returns a text from
    which the plan is recovered label by label; so two such plans with the
    same text are the same plan. *)
Theorem planToString_readable (res : ResultObject) (p : list string) :
  r_plan res = Some p ->
  Forall (fun a => a ∈ actionLabels) p ->
  rmap readLabels (planToString res) = Return p.
Proof.
  intros Hp Hlabels. unfold planToString, rmap. rewrite Hp. simpl.
  by rewrite readLabels_concat.
Qed.

(** ** Objects *)

Section MoreHeap.
Implicit Types h : gmap loc object.

(** When [performAction] throws on the value of a state object, it throws on
    the object after [cloneState] has returned, and writes nothing more. *)
Lemma performAction_h_throws (a : string) (s : loc) h (st : State) (e : exn) :
  absState h s = Some st ->
  performAction a st = Throw e ->
  exists l h',
    cloneState_h s h = (Return l, h') /\
    performAction_h a s h = (Throw e, h').
Proof.
  intros Hs.
  destruct (cloneState_h_total h s st Hs)
    as (l & h1 & rs & rows & Hclone & Hl & Hrs & Hrows & Hnd & Hlrows & Hsub & Hfresh).
  intros Hthrow. exists l, h1. split; [done|]. revert Hthrow.
  pose proof (index_rows h1 rows (stacks st) (arm st) Hrows) as Hidx.
  unfold performAction_h, performAction.
  rewrite (mbind_run _ _ _ _ _ Hclone), cloneState_id.
  destruct (String.eqb a "l"); [done|].
  destruct (String.eqb a "r"); [done|].
  destruct (String.eqb a "p"); [|destruct (String.eqb a "d")].
  - destruct (index (stacks st) (arm st)) as [cs|] eqn:Hcs;
      [by destruct (pop cs)|].
    intros [= <-]. unfold armStack. rewrite ?mbind_assoc.
    rewrite (mbind_run _ _ _ _ _ (getStacks_run _ _ _ _ _ Hl)), ?mbind_assoc.
    rewrite (mbind_run _ _ _ _ _ (getArm_run _ _ _ _ _ Hl)), ?mbind_assoc.
    rewrite (mbind_run _ _ _ _ _ (readStacks_run _ _ _ Hrs)).
    by rewrite Hidx, ?mbind_assoc, mbind_mthrow.
  - destruct (index (stacks st) (arm st)) as [cs|] eqn:Hcs; [done|].
    intros [= <-]. unfold armStack. rewrite ?mbind_assoc.
    rewrite (mbind_run _ _ _ _ _ (getStacks_run _ _ _ _ _ Hl)), ?mbind_assoc.
    rewrite (mbind_run _ _ _ _ _ (getArm_run _ _ _ _ _ Hl)), ?mbind_assoc.
    rewrite (mbind_run _ _ _ _ _ (readStacks_run _ _ _ Hrs)).
    by rewrite Hidx, ?mbind_assoc, mbind_mthrow.
  - by intros [= <-].
Qed.

(** X20. When [performAction] throws on the value of a state object (an
    unknown label, or "p" or "d" with the arm over no column), it throws the
    same exception on the object, and only after [cloneState] has run: the
    call of [cloneState] returns a clone, a new object with the value of the
    state, and the heap [performAction] leaves is the heap that call leaves,
    clone included, with nothing written after it. The state object still
    has its value, and every earlier object is as it was. *)
Theorem performAction_h_failure (a : string) (s : loc) h (st : State) (e : exn) :
  absState h s = Some st ->
  performAction a st = Throw e ->
  exists l h',
    cloneState_h s h = (Return l, h') /\
    performAction_h a s h = (Throw e, h') /\
    h ⊆ h' /\ h !! l = None /\
    absState h' l = Some st /\ absState h' s = Some st.
Proof.
  intros Hs Hthrow.
  destruct (performAction_h_throws a s h st e Hs Hthrow) as (l & h' & Hclone & Hrun).
  destruct (cloneState_h_total h s st Hs)
    as (l1 & h1 & rs & rows & Hclone1 & Hl & Hrs & Hrows & _ & _ & Hsub & Hfresh).
  rewrite Hclone in Hclone1. injection Hclone1 as <- <-.
  exists l, h'. split_and!; try done.
  - by apply Forall_cons in Hfresh as [? _].
  - apply absState_Some. by exists rs, rows.
  - by eapply absState_weaken.
Qed.

(** X21. [cloneState] on a state object returns a new state object with the
    same value whose array of stacks and stacks are new objects, all
    different from each other, also when the original lists one array as two
    of its stacks; the original keeps its value. *)
Theorem cloneState_h_fresh_copy (s : loc) h (st : State) :
  absState h s = Some st ->
  exists l h',
    cloneState_h s h = (Return l, h') /\
    h ⊆ h' /\
    absState h' l = Some st /\ absState h' s = Some st /\
    NoDup (footprint h' l) /\
    Forall (fun r => h !! r = None) (footprint h' l).
Proof.
  intros Hs.
  destruct (cloneState_h_total h s st Hs)
    as (l & h' & rs & rows & Hrun & Hl & Hrs & Hrows & Hnd & Hlrows & Hsub & Hfresh).
  exists l, h'. unfold footprint. rewrite Hl, Hrs. split_and!; try done.
  - apply absState_Some. by exists rs, rows.
  - by eapply absState_weaken.
  - assert (Hrsrows : rs ∉ rows).
    { intros [cs Hcs]%(rowsAre_elem_of h' rows (stacks st)); [congruence|done]. }
    constructor.
    + intros [-> | Hin]%elem_of_cons; [congruence | done].
    + by constructor.
Qed.

(** X22. [cloneState] and [performAction] never write to an object the heap
    already has: on every heap, well formed or not, for every label, and
    whether they return or throw, every object that was there is there
    unchanged afterwards. *)
Theorem heap_only_grows (a : string) (s : loc) h :
  h ⊆ snd (cloneState_h s h) /\ h ⊆ snd (performAction_h a s h).
Proof.
  split.
  - destruct (cloneState_h s h) as [r h'] eqn:Hrun.
    by apply cloneState_h_inv in Hrun as [Hsub _].
  - destruct (performAction_h a s h) as [r h'] eqn:Hrun.
    by apply performAction_h_frame in Hrun.
Qed.

End MoreHeap.

(** ** The further properties at the scenario's world *)

Section MoreInstances.
#[local] Existing Instance Standin.collaborators.

Lemma performAction_unchecked_witness :
  (@nil jsval = [] ->
   exists s', performAction "p" (mkState 1 JNull [[JStr "a"; JStr "b"]; []]) =
                Return (mkNeighb s' "p") /\
              isUndefined (holding s') = true /\
              stacks s' = [[JStr "a"; JStr "b"]; []] /\ arm s' = 1) /\
  (exists s', performAction "d" (mkState 1 JNull [[JStr "a"; JStr "b"]; []]) =
                Return (mkNeighb s' "d") /\
              index (stacks s') (arm s') = Some ([] ++ [JNull]) /\
              holding s' = JNull /\ arm s' = 1).
Proof.
  apply (performAction_unchecked (mkState 1 JNull [[JStr "a"; JStr "b"]; []]) []).
  reflexivity.
Defined.

Lemma neighbours_at_most_three_witness :
  exists ns,
    neighbours Standin.objects Standin.start = Return ns /\
    (length ns <= 3)%nat /\
    NoDup (map action ns) /\
    (forall n, n ∈ ns -> action n ∈ actionLabels) /\
    ~ ("p" ∈ map action ns /\ "d" ∈ map action ns).
Proof.
  eexists. split; [reflexivity|].
  apply (neighbours_at_most_three Standin.objects Standin.start).
  reflexivity.
Defined.

Lemma scenario_step_pickup :
  step Standin.objects Standin.start (mkState 0 (JStr "b") [[JStr "a"]; []]).
Proof. eexists _, "p". split; [reflexivity|]. repeat constructor. Qed.

Lemma neighbours_no_self_loop_witness :
  step Standin.objects Standin.start (mkState 0 (JStr "b") [[JStr "a"]; []]) /\
  mkState 0 (JStr "b") [[JStr "a"]; []] <> Standin.start.
Proof.
  split; [exact scenario_step_pickup|].
  apply (neighbours_no_self_loop Standin.objects Standin.start).
  exact scenario_step_pickup.
Defined.

Lemma neighbours_step_back_witness :
  step Standin.objects (mkState 0 JNull [[JStr "a"; JStr "b"]; []])
       (mkState 0 (JStr "b") [[JStr "a"]; []]).
Proof.
  eapply (neighbours_step_back Standin.objects
            (mkState 0 (JStr "b") [[JStr "a"]; []])
            (mkState 0 JNull [[JStr "a"; JStr "b"]; []]) "d").
  - vm_compute. reflexivity.
  - apply list_elem_of_further, list_elem_of_here.
  - discriminate.
Defined.

Lemma reachable_armInRange_witness :
  armInRange Standin.finish /\
  length (stacks Standin.finish) = length (stacks Standin.start) /\
  exists ns, neighbours Standin.objects Standin.finish = Return ns.
Proof.
  apply (reachable_armInRange Standin.objects Standin.start Standin.finish).
  - unfold armInRange. simpl. lia.
  - exact scenario_reachable.
Defined.

Lemma heightDifference_column_symmetry_witness :
  heightDifference Standin.start (JStr "b") (JStr "a") = Return (1 - 0) /\
  heightDifference Standin.start (JStr "a") (JStr "b") = Return (- (1 - 0)).
Proof.
  exact (heightDifference_column_symmetry Standin.start (JStr "b") (JStr "a")
           eq_refl eq_refl eq_refl eq_refl eq_refl).
Defined.

Lemma above_asymmetric_witness :
  testAtom Standin.start (mkLiteral true "above" ["b"; "a"]) = Return true /\
  testAtom Standin.start (mkLiteral true "above" ["a"; "b"]) <> Return true.
Proof.
  split; [reflexivity|].
  apply (above_asymmetric Standin.start "b" "a"). reflexivity.
Defined.

Lemma ontop_implies_above_witness :
  (testAtom Standin.start (mkLiteral true "ontop" ["b"; "a"]) = Return true ->
   testAtom Standin.start (mkLiteral true "above" ["b"; "a"]) = Return true) /\
  (testAtom Standin.start (mkLiteral false "above" ["b"; "a"]) = Return true ->
   testAtom Standin.start (mkLiteral false "ontop" ["b"; "a"]) = Return true).
Proof.
  apply (ontop_implies_above Standin.start "ontop" ["b"; "a"]). by left.
Defined.

Lemma held_operand_relation_witness :
  testAtom (mkState 0 (JStr "b") [[JStr "a"]; []])
    (mkLiteral true "ontop" ["b"; "a"]) = Return (negb true).
Proof.
  apply (held_operand_relation (mkState 0 (JStr "b") [[JStr "a"]; []])
           true "ontop" ["b"; "a"]).
  - constructor.
  - left. reflexivity.
Defined.

Lemma plan_failure_keeps_writes_witness :
  fst (plan ([1%positive] ++ 2%positive :: []) Standin.world Standin.store0) =
    Throw (ForeignError "Astar: no path") /\
  (forall l', l' ∈ [1%positive] ->
     exists r p,
       records Standin.store0 !! l' = Some r /\
       searchOutcome Standin.world (intp r) = Return p /\
       records (snd (plan ([1%positive] ++ 2%positive :: []) Standin.world
                       Standin.store0)) !! l' =
       Some (mkResultObject (intp r) (Some (shift p)))) /\
  (forall l', l' ∉ [1%positive] ->
     records (snd (plan ([1%positive] ++ 2%positive :: []) Standin.world
                     Standin.store0)) !! l' = records Standin.store0 !! l') /\
  (is_Some (records Standin.store0 !! 2%positive) ->
   worldDictionary (snd (plan ([1%positive] ++ 2%positive :: []) Standin.world
                           Standin.store0)) =
   Some (ws_objects Standin.world)).
Proof.
  apply (plan_failure_keeps_writes Standin.world [1%positive] [] 2%positive
           (ForeignError "Astar: no path") Standin.store0).
  - constructor; [|constructor]. eexists. vm_compute. reflexivity.
  - vm_compute. reflexivity.
Defined.

Lemma plan_then_planToString_witness :
  exists r p,
    records (snd (plan [1%positive] Standin.world Standin.store0)) !! 1%positive =
      Some r /\
    searchFor Standin.world Standin.store0 1%positive = Return p /\
    planToString r = Return (String.concat ", " (shift p)).
Proof.
  apply (plan_then_planToString Standin.world [1%positive] [1%positive]
           Standin.store0).
  - vm_compute. reflexivity.
  - constructor.
Defined.

Lemma planToString_readable_witness :
  rmap readLabels
    (planToString (mkResultObject Standin.b_on_floor (Some ["p"; "r"; "d"]))) =
  Return ["p"; "r"; "d"].
Proof.
  apply (planToString_readable
           (mkResultObject Standin.b_on_floor (Some ["p"; "r"; "d"]))
           ["p"; "r"; "d"]).
  - reflexivity.
  - unfold actionLabels. repeat constructor.
Defined.

Lemma neighbours_h_refines_witness :
  exists out h',
    neighbours_h Standin.objects 1%positive Standin.heap = (out, h') /\
    Standin.heap ⊆ h' /\
    match neighbours Standin.objects Standin.start with
    | Return ns =>
        exists res,
          out = Return res /\ Forall2 (neighbRefines h') res ns /\
          Forall (fun l => Standin.heap !! l = None) (footprints h' res) /\
          NoDup (footprints h' res)
    | Throw e => out = Throw e
    end.
Proof.
  apply (neighbours_h_refines Standin.objects 1%positive Standin.heap
           Standin.start).
  reflexivity.
Defined.

(** The neighbours of the witness, run: a move to the right and a pick-up,
    as the new state objects 8 and 12, over new arrays each. *)
Example scenario_neighbours_h :
  fst (neighbours_h Standin.objects 1%positive Standin.heap) =
    Return [(8%positive, "r"); (12%positive, "p")] /\
  footprints (snd (neighbours_h Standin.objects 1%positive Standin.heap))
    [(8%positive, "r"); (12%positive, "p")] =
    [8; 5; 6; 7; 12; 9; 10; 11]%positive.
Proof. vm_compute. by split_and!. Qed.

Lemma performAction_h_failure_witness :
  exists l h',
    cloneState_h 1%positive Standin.heap = (Return l, h') /\
    performAction_h "x" 1%positive Standin.heap =
      (Throw (PlannerError "ERROR: unknown action x"), h') /\
    Standin.heap ⊆ h' /\ Standin.heap !! l = None /\
    absState h' l = Some Standin.start /\
    absState h' 1%positive = Some Standin.start.
Proof.
  apply (performAction_h_failure "x" 1%positive Standin.heap Standin.start).
  - reflexivity.
  - reflexivity.
Defined.

Lemma cloneState_h_fresh_copy_witness :
  exists l h',
    cloneState_h 1%positive Standin.aliasedHeap = (Return l, h') /\
    Standin.aliasedHeap ⊆ h' /\
    absState h' l = Some (mkState 0 JNull [[JStr "a"]; [JStr "a"]]) /\
    absState h' 1%positive = Some (mkState 0 JNull [[JStr "a"]; [JStr "a"]]) /\
    NoDup (footprint h' l) /\
    Forall (fun r => Standin.aliasedHeap !! r = None) (footprint h' l).
Proof.
  apply (cloneState_h_fresh_copy 1%positive Standin.aliasedHeap
           (mkState 0 JNull [[JStr "a"]; [JStr "a"]])).
  reflexivity.
Defined.

(** The clone of the state with one array as both stacks, run: the clone is
    object 7 over the arrays 4, 5 and 6, and the original lists array 3
    twice. *)
Example scenario_cloneState_h_aliased :
  fst (cloneState_h 1%positive Standin.aliasedHeap) = Return 7%positive /\
  footprint Standin.aliasedHeap 1%positive = [1; 2; 3; 3]%positive /\
  footprint (snd (cloneState_h 1%positive Standin.aliasedHeap)) 7%positive =
    [7; 4; 5; 6]%positive.
Proof. vm_compute. by split_and!. Qed.

End MoreInstances.
